(** * ec2.py: an Ansible dynamic inventory over EC2, RDS and Route53

    A shallow embedding of [src/ec2.py].  Python objects are records,
    dictionaries are finite maps, the two shared dictionaries [inventory]
    and [index], the cache directory and standard output form an explicit
    store threaded through a small state-and-exception monad.  Times
    ([time()], [os.path.getmtime]) are counted in whole seconds. *)

From Stdlib Require Import ZArith Ascii String.
From stdpp Require Import gmap strings list fin_maps.

Local Open Scope Z_scope.

(** ** Strings and the regular expression of [to_safe] *)

(** An element of a bracketed character class: [A-Z] or a single
    character. *)
Inductive class_item :=
  | Range (lo hi : ascii)
  | Single (c : ascii).

Definition item_matches (c : ascii) (it : class_item) : bool :=
  match it with
  | Range lo hi =>
      (nat_of_ascii lo <=? nat_of_ascii c)%nat && (nat_of_ascii c <=? nat_of_ascii hi)%nat
  | Single d => Ascii.eqb c d
  end.

(** [[^...]]: the character is matched when no item of the class matches
    it (a negated class also matches the newline). *)
Definition negated_class_matches (items : list class_item) (c : ascii) : bool :=
  negb (existsb (item_matches c) items).

(** [re.sub("[^...]", repl, word)]: every matching character is replaced
    by [repl], the others are kept. *)
Fixpoint re_sub_negated_class (items : list class_item) (repl word : string) : string :=
  match word with
  | EmptyString => EmptyString
  | String c rest =>
      (if negated_class_matches items c then repl else String c EmptyString)
        +:+ re_sub_negated_class items repl rest
  end.

(** The class [A-Za-z0-9\-]. *)
Definition safe_class : list class_item :=
  [Range "A" "Z"; Range "a" "z"; Range "0" "9"; Single "-"].

Definition to_safe (word : string) : string :=
  re_sub_negated_class safe_class "_" word.

(** The characters the specification calls letters, digits and hyphen,
    listed one by one. *)
Definition letters_digits_hyphen : string :=
  "ABCDEFGHIJKLMNOPQRSTUVWXYZabcdefghijklmnopqrstuvwxyz0123456789-".

Fixpoint occurs (c : ascii) (s : string) : bool :=
  match s with
  | EmptyString => false
  | String d rest => Ascii.eqb c d || occurs c rest
  end.

Definition sanitize_char (c : ascii) : ascii :=
  if occurs c letters_digits_hyphen then c else "_"%char.

Fixpoint map_string (f : ascii → ascii) (s : string) : string :=
  match s with
  | EmptyString => EmptyString
  | String c rest => String (f c) (map_string f rest)
  end.

(** [s.endswith(suffix)] for a one-character suffix, and [s[:-1]]. *)
Fixpoint endswith_char (s : string) (c : ascii) : bool :=
  match s with
  | EmptyString => false
  | String d EmptyString => Ascii.eqb d c
  | String _ rest => endswith_char rest c
  end.

Fixpoint drop_last (s : string) : string :=
  match s with
  | EmptyString => EmptyString
  | String _ EmptyString => EmptyString
  | String d rest => String d (drop_last rest)
  end.

(** [s.split(sep)] for a one-character separator: never empty. *)
Fixpoint split (sep : ascii) (s : string) : list string :=
  match s with
  | EmptyString => [EmptyString]
  | String c rest =>
      if Ascii.eqb c sep then EmptyString :: split sep rest
      else match split sep rest with
           | h :: t => String c h :: t
           | [] => [String c EmptyString]
           end
  end.

(** [l[-1]] on the result of a split. *)
Definition last_item (l : list string) : string := default EmptyString (last l).

(** [os.path.join(a, b)] for a relative [b]. *)
Definition path_join (a b : string) : string :=
  if String.eqb a "" then b
  else if endswith_char a "/" then a +:+ b
  else a +:+ "/" +:+ b.

(** ** Python values and boto objects *)

(** The value of a string-or-[None] attribute. *)
Inductive pyval :=
  | PyNone
  | PyStr (s : string).

(** Truth value of [None] and of a string. *)
Definition truthy (v : pyval) : bool :=
  match v with
  | PyNone => false
  | PyStr s => negb (String.eqb s "")
  end.

Inductive exn :=
  | AttributeError (name : string)
  | NameError (name : string)
  | IOError (path : string)
  | OSError (path : string)
  | ValueError
  | BotoServerError (msg : string)
  | SystemExit (code : Z).

Inductive outcome (A : Type) :=
  | Return (a : A)
  | Raise (e : exn).
Arguments Return {A} a.
Arguments Raise {A} e.

(** A dictionary from strings to lists of strings: the shape of both
    [inventory] (group name to addresses) and [index] (address to
    [[region, id]]), and of the JSON documents of the cache. *)
Abbreviation dict := (gmap string (list string)).

(** The map of Route53 resource records to the domain names pointing to
    them. *)
Abbreviation records_map := (gmap string (gset string)).

Module Group.
Record t := { id : string; name : string }.
End Group.

Module Profile.
Record t := { arn : string; id : string }.
End Profile.

(** [boto.ec2.instance.Instance].  The address attributes are absent
    ([None] here) on an object that does not have them at all; [groups]
    is absent with a boto older than 2.3.0. *)
Module Instance.
Record t := {
  id : string;
  state : string;
  subnet_id : pyval;
  public_dns_name : option pyval;
  private_dns_name : option pyval;
  ip_address : option pyval;
  private_ip_address : option pyval;
  placement : string;
  instance_type : string;
  key_name : pyval;
  groups : option (list Group.t);
  tags : list (string * string);
  instance_profile : option Profile.t
}.
End Instance.

Module ParameterGroup.
Record t := { name : string }.
End ParameterGroup.

(** [boto.rds.dbinstance.DBInstance]; [security_group] is absent with an
    older boto, and [None] when the instance has none. *)
Module DBInstance.
Record t := {
  id : string;
  status : string;
  endpoint : pyval * Z;
  availability_zone : string;
  instance_class : string;
  security_group : option (option Group.t);
  engine : string;
  parameter_group : ParameterGroup.t
}.
End DBInstance.

Module Reservation.
Record t := { instances : list Instance.t }.
End Reservation.

Module Zone.
Record t := { id : string; name : string }.
End Zone.

Module RecordSet.
Record t := { name : string; resource_records : list string }.
End RecordSet.

(** The connection [boto.connect_route53()] returns. *)
Module Route53.
Record t := {
  get_zones : list Zone.t;
  get_all_rrsets : string → list RecordSet.t
}.
End Route53.

(** [getattr(instance, name)] for the string-valued attributes. *)
Definition getattr (instance : Instance.t) (name : string) : outcome pyval :=
  let opt (o : option pyval) :=
    match o with Some v => Return v | None => Raise (AttributeError name) end in
  if String.eqb name "id" then Return (PyStr (Instance.id instance))
  else if String.eqb name "state" then Return (PyStr (Instance.state instance))
  else if String.eqb name "subnet_id" then Return (Instance.subnet_id instance)
  else if String.eqb name "public_dns_name" then opt (Instance.public_dns_name instance)
  else if String.eqb name "private_dns_name" then opt (Instance.private_dns_name instance)
  else if String.eqb name "ip_address" then opt (Instance.ip_address instance)
  else if String.eqb name "private_ip_address" then opt (Instance.private_ip_address instance)
  else if String.eqb name "placement" then Return (PyStr (Instance.placement instance))
  else if String.eqb name "instance_type" then Return (PyStr (Instance.instance_type instance))
  else if String.eqb name "key_name" then Return (Instance.key_name instance)
  else Raise (AttributeError name).

(** ** The store and the monad *)

(** What [json.dumps] writes and [print] shows: the JSON text of a
    dictionary, stood for by the dictionary, or any other text. *)
Inductive doc :=
  | JsonObj (d : dict)
  | Text (s : string).

Inductive node :=
  | RegularFile (mtime : Z) (content : doc)
  | Directory.

Record Store := {
  inventory : dict;
  index : dict;
  fs : gmap string node;
  clock : Z;
  stdout : list doc
}.

Definition M (A : Type) : Type := Store → Store * outcome A.

Global Instance M_ret : MRet M := λ A a s, (s, Return a).

Global Instance M_bind : MBind M := λ A B f m s,
  match m s with
  | (s', Return a) => f a s'
  | (s', Raise e) => (s', Raise e)
  end.

Definition raise {A} (e : exn) : M A := λ s, (s, Raise e).

Definition lift {A} (o : outcome A) : M A := λ s, (s, o).

Definition get_store : M Store := λ s, (s, Return s).

Definition set_inventory (d : dict) : M unit := λ s,
  ({| inventory := d; index := index s; fs := fs s; clock := clock s; stdout := stdout s |},
   Return tt).

Definition set_index (d : dict) : M unit := λ s,
  ({| inventory := inventory s; index := d; fs := fs s; clock := clock s; stdout := stdout s |},
   Return tt).

Definition set_fs (f : gmap string node) : M unit := λ s,
  ({| inventory := inventory s; index := index s; fs := f; clock := clock s; stdout := stdout s |},
   Return tt).

Definition print (line : doc) : M unit := λ s,
  ({| inventory := inventory s; index := index s; fs := fs s; clock := clock s;
      stdout := stdout s ++ [line] |},
   Return tt).

(** [try: body except <handled>: handler]. *)
Definition try_except {A} (body : M A) (handler : exn → option (M A)) : M A := λ s,
  match body s with
  | (s', Return a) => (s', Return a)
  | (s', Raise e) =>
      match handler e with
      | Some h => h s'
      | None => (s', Raise e)
      end
  end.

Fixpoint for_each {A} (l : list A) (body : A → M unit) : M unit :=
  match l with
  | [] => mret tt
  | x :: rest => body x ;; for_each rest body
  end.

(** [d[key] = value]. *)
Definition setitem (key : string) (value : list string) (d : dict) : dict :=
  <[key := value]> d.

(** [d[key].append(x)] on a [defaultdict(list)]. *)
Definition append_item (key x : string) (d : dict) : dict :=
  <[key := default [] (d !! key) ++ [x]]> d.

Definition index_set (key : string) (value : list string) : M unit :=
  s ← get_store; set_index (setitem key value (index s)).

Definition inventory_set (key : string) (value : list string) : M unit :=
  s ← get_store; set_inventory (setitem key value (inventory s)).

Definition inventory_append (key x : string) : M unit :=
  s ← get_store; set_inventory (append_item key x (inventory s)).

(** ** Configuration and the cloud provider *)

(** The module-level settings read from [ec2.ini]. *)
Record Config := {
  CACHE_MAX_AGE : Z;
  CACHE_BASE_PATH : string;
  EUCALYPTUS : bool;
  EUCALYPTUS_HOST : pyval;
  REGIONS : list string;
  HOST_ADDRESS_VARIABLE : string;
  VPC_HOST_ADDRESS_VARIABLE : string;
  USE_ROUTE53 : bool
}.

(** What the boto calls answer.  [None] from a [connect_to_region] is the
    [None] boto returns for an unknown region; a string on the left of
    the RDS answer is the message of a [BotoServerError].  The last field
    is the part of [get_host_info] after the index lookup: the call of
    [get_instance] and the dump of the variables of the instance found. *)
Record Provider := {
  connect_euca : list Reservation.t;
  ec2_connect_to_region : string → option (list Reservation.t);
  rds_connect_to_region : string → option (string + list DBInstance.t);
  connect_route53 : Route53.t;
  instance_vars : string → string → M doc
}.

Section Ec2.

Context (cfg : Config) (aws : Provider).

Definition CACHE_FILE_PATH : string := path_join (CACHE_BASE_PATH cfg) "ansible-ec2.cache".
Definition CACHE_INDEX_PATH : string := path_join (CACHE_BASE_PATH cfg) "ansible-ec2.index".

(** *** Route53 *)

(** The names bound where [get_route53_records] looks a connection up:
    its local [r53].  Neither the module nor the builtins define
    [r53_conn]. *)
Definition route53_scope (r53 : Route53.t) : gmap string Route53.t :=
  {[ "r53" := r53 ]}.

Definition lookup_name {A} (scope : gmap string A) (name : string) : M A :=
  match scope !! name with
  | Some v => mret v
  | None => raise (NameError name)
  end.

(** [route53_records.setdefault(resource, set())] followed by
    [route53_records[resource].add(record_name)]. *)
Definition add_record (resource record_name : string) (m : records_map) : records_map :=
  <[resource := default ∅ (m !! resource) ∪ {[record_name]}]> m.

Definition record_set_names (record_set : RecordSet.t) (m : records_map) : records_map :=
  let record_name := RecordSet.name record_set in
  let record_name :=
    if endswith_char record_name "." then drop_last record_name else record_name in
  foldl (λ acc resource, add_record resource record_name acc) m
        (RecordSet.resource_records record_set).

Fixpoint route53_zone_loop (scope : gmap string Route53.t) (zones : list Zone.t)
    (route53_records : records_map) : M records_map :=
  match zones with
  | [] => mret route53_records
  | zone :: rest =>
      r53_conn ← lookup_name scope "r53_conn";
      let rrsets := Route53.get_all_rrsets r53_conn (Zone.id zone) in
      route53_zone_loop scope rest
        (foldl (λ acc record_set, record_set_names record_set acc) route53_records rrsets)
  end.

Definition get_route53_records : M records_map :=
  let r53 := connect_route53 aws in
  let route53_zones := Route53.get_zones r53 in
  route53_zone_loop (route53_scope r53) route53_zones ∅.

Definition instance_attributes : list string :=
  ["public_dns_name"; "private_dns_name"; "ip_address"; "private_ip_address"].

(** [value in route53_records], then [route53_records[value]]. *)
Definition records_lookup (value : pyval) (route53_records : records_map) : option (gset string) :=
  match value with
  | PyNone => None
  | PyStr s => route53_records !! s
  end.

Definition route53_name_set (instance : Instance.t) (route53_records : records_map)
    : gset string :=
  foldl (λ name_list attrib,
           match getattr instance attrib with
           | Raise _ => name_list
           | Return value =>
               match records_lookup value route53_records with
               | Some names => name_list ∪ names
               | None => name_list
               end
           end) ∅ instance_attributes.

(** [list(name_list)]: the elements in the order the set lists them. *)
Definition get_instance_route53_names (instance : Instance.t)
    (route53_records : records_map) : list string :=
  elements (route53_name_set instance route53_records).

(** *** Grouping *)

(** [if records:] on [None] or a dictionary. *)
Definition records_truthy (records : option records_map) : option records_map :=
  match records with
  | Some m => if decide (m = ∅) then None else Some m
  | None => None
  end.

Definition old_boto_warning : M unit :=
  print (Text "Using older version of Boto, won't be able to inventory by security group.") ;;
  print (Text "Please upgrade to a version of boto >= 2.3.0").

Definition old_boto_warning_rds : M unit :=
  print (Text "Using older version of boto, won't be able to inventory by security group.") ;;
  print (Text "Please upgrade to a version of boto >= 2.3.0").

Definition on_attribute_error (h : M unit) (e : exn) : option (M unit) :=
  match e with
  | AttributeError _ => Some h
  | _ => None
  end.

(** [instance.groups], missing on objects of an old boto. *)
Definition instance_groups (instance : Instance.t) : M (list Group.t) :=
  match Instance.groups instance with
  | Some gs => mret gs
  | None => raise (AttributeError "groups")
  end.

Definition instance_security_group (instance : DBInstance.t) : M (option Group.t) :=
  match DBInstance.security_group instance with
  | Some g => mret g
  | None => raise (AttributeError "security_group")
  end.

(** The statements of [add_instance] after [inventory[instance.id] = [dest]]. *)
Definition add_instance_groups (instance : Instance.t) (region : string)
    (records : option records_map) (dest : string) : M unit :=
  inventory_append region dest ;;
  inventory_append (Instance.placement instance) dest ;;
  inventory_append (to_safe ("type_" +:+ Instance.instance_type instance)) dest ;;
  (match Instance.key_name instance with
   | PyStr k =>
       if truthy (PyStr k) then inventory_append (to_safe ("key_" +:+ k)) dest else mret tt
   | PyNone => mret tt
   end) ;;
  try_except
    (gs ← instance_groups instance;
     for_each gs (λ group,
       inventory_append (to_safe ("security_group_" +:+ Group.name group)) dest))
    (on_attribute_error old_boto_warning) ;;
  for_each (Instance.tags instance) (λ kv,
    inventory_append (to_safe ((("tag_" +:+ kv.1) +:+ "=") +:+ kv.2)) dest) ;;
  (match records_truthy records with
   | Some m =>
       for_each (get_instance_route53_names instance m) (λ name,
         inventory_append name dest)
   | None => mret tt
   end) ;;
  (match Instance.instance_profile instance with
   | Some profile =>
       inventory_append
         (to_safe ("profile_" +:+ last_item (split "/" (Profile.arn profile)))) dest
   | None => mret tt
   end).

(** The address attribute [add_instance] reads. *)
Definition select_dest (instance : Instance.t) : outcome pyval :=
  if truthy (Instance.subnet_id instance)
  then getattr instance (VPC_HOST_ADDRESS_VARIABLE cfg)
  else getattr instance (HOST_ADDRESS_VARIABLE cfg).

(** [add_instance] returns [None] on its early exits and the pair
    [(inventory, index)] at its end. *)
Definition add_instance (instance : Instance.t) (region : string)
    (records : option records_map) : M (option (dict * dict)) :=
  if negb (String.eqb (Instance.state instance) "running") then mret None
  else
    dest ← lift (select_dest instance);
    match dest with
    | PyNone => mret None
    | PyStr dest =>
        if negb (truthy (PyStr dest)) then mret None
        else
          index_set dest [region; Instance.id instance] ;;
          inventory_set (Instance.id instance) [dest] ;;
          add_instance_groups instance region records dest ;;
          s ← get_store;
          mret (Some (inventory s, index s))
    end.

Definition add_rds_instance_groups (instance : DBInstance.t) (region : string)
    (dest : string) : M unit :=
  inventory_append region dest ;;
  inventory_append (DBInstance.availability_zone instance) dest ;;
  inventory_append (to_safe ("type_" +:+ DBInstance.instance_class instance)) dest ;;
  try_except
    (sg ← instance_security_group instance;
     match sg with
     | Some g => inventory_append (to_safe ("security_group_" +:+ Group.name g)) dest
     | None => mret tt
     end)
    (on_attribute_error old_boto_warning_rds) ;;
  inventory_append (to_safe ("rds_" +:+ DBInstance.engine instance)) dest ;;
  inventory_append
    (to_safe ("rds_parameter_group_" +:+
              ParameterGroup.name (DBInstance.parameter_group instance))) dest.

Definition add_rds_instance (instance : DBInstance.t) (region : string)
    (records : option records_map) : M (option (dict * dict)) :=
  if negb (String.eqb (DBInstance.status instance) "available") then mret None
  else
    match (DBInstance.endpoint instance).1 with
    | PyNone => mret None
    | PyStr dest =>
        if negb (truthy (PyStr dest)) then mret None
        else
          index_set dest [region; DBInstance.id instance] ;;
          inventory_set (DBInstance.id instance) [dest] ;;
          add_rds_instance_groups instance region dest ;;
          s ← get_store;
          mret (Some (inventory s, index s))
    end.

(** *** Fetching *)

Definition sys_exit {A} (code : Z) : M A := raise (SystemExit code).

Definition get_instances_by_region (region : string) (records : option records_map)
    : M unit :=
  let conn :=
    if EUCALYPTUS cfg then Some (connect_euca aws)
    else ec2_connect_to_region aws region in
  match conn with
  | None =>
      print (Text ("Region name: " +:+ region +:+
                   " likely not supported, or AWS is down.  Connection to region failed.")) ;;
      sys_exit 1
  | Some reservations =>
      for_each reservations (λ reservation,
        for_each (Reservation.instances reservation) (λ instance,
          add_instance instance region None ;; mret tt))
  end.

Definition on_boto_server_error (h : string → M unit) (e : exn) : option (M unit) :=
  match e with
  | BotoServerError msg => Some (h msg)
  | _ => None
  end.

Definition get_rds_instances_by_region (region : string) (records : option records_map)
    : M unit :=
  try_except
    (match rds_connect_to_region aws region with
     | Some (inr instances) =>
         for_each instances (λ instance,
           add_rds_instance instance region records ;; mret tt)
     | Some (inl msg) => raise (BotoServerError msg)
     | None => mret tt
     end)
    (on_boto_server_error (λ msg,
       print (Text "Looks like AWS RDS is down: ") ;;
       print (Text msg) ;;
       sys_exit 1)).

(** *** The cache *)

Definition isfile (path : string) : M bool :=
  s ← get_store;
  mret (match fs s !! path with Some (RegularFile _ _) => true | _ => false end).

Definition getmtime (path : string) : M Z :=
  s ← get_store;
  match fs s !! path with
  | Some (RegularFile mtime _) => mret mtime
  | _ => raise (OSError path)
  end.

Definition time : M Z := s ← get_store; mret (clock s).

(** [open(path, 'r')] and [json.loads] or [json.load] of what it holds. *)
Definition read_json (path : string) : M dict :=
  s ← get_store;
  match fs s !! path with
  | Some (RegularFile _ (JsonObj d)) => mret d
  | Some (RegularFile _ (Text _)) => raise ValueError
  | _ => raise (IOError path)
  end.

(** [open(path, 'w')] and a [write] of [content].  Of the ways the two
    can fail, only the path being a directory is modelled; a missing
    parent directory, a path that may not be written or a full disk are
    not. *)
Definition write_file (path : string) (content : doc) : M unit :=
  s ← get_store;
  match fs s !! path with
  | Some Directory => raise (IOError path)
  | _ => set_fs (<[path := RegularFile (clock s) content]> (fs s))
  end.

Definition load_from_cache (filename : string) : M dict := read_json filename.

Definition cache_expired : M bool :=
  cache_is_file ← isfile CACHE_FILE_PATH;
  if (cache_is_file : bool) then
    mod_time ← getmtime CACHE_FILE_PATH;
    current_time ← time;
    if mod_time + CACHE_MAX_AGE cfg >? current_time then
      index_is_file ← isfile CACHE_INDEX_PATH;
      if (index_is_file : bool) then mret false else mret true
    else mret true
  else mret true.

(** [json.dumps({})]. *)
Definition empty_json_object : doc := JsonObj ∅.

Definition get_host_info (index : dict) (host : string) : M doc :=
  index ← (if (size index =? 0)%nat then load_from_cache CACHE_INDEX_PATH else mret index);
  match index !! host with
  | None => mret empty_json_object
  | Some [region; instance_id] => instance_vars aws region instance_id
  | Some _ => raise ValueError
  end.

Definition update_inventory : M (dict * dict) :=
  set_inventory ∅ ;;
  set_index ∅ ;;
  records ← (if USE_ROUTE53 cfg then r ← get_route53_records; mret (Some r)
             else mret None);
  for_each (REGIONS cfg) (λ region,
    get_instances_by_region region records ;;
    get_rds_instances_by_region region records) ;;
  s ← get_store;
  write_file CACHE_FILE_PATH (JsonObj (inventory s)) ;;
  s ← get_store;
  write_file CACHE_INDEX_PATH (JsonObj (index s)) ;;
  s ← get_store;
  mret (inventory s, index s).

(** *** The command line *)

Record Args := {
  list_mode : bool;
  host : pyval;
  refresh_cache : bool
}.

(** The printing at the end of the script. *)
Definition serve (args : Args) (loaded : dict * dict) : M unit :=
  match host args with
  | PyStr h =>
      if truthy (PyStr h) then info ← get_host_info loaded.2 h; print info
      else if list_mode args then print (JsonObj loaded.1) else mret tt
  | PyNone => if list_mode args then print (JsonObj loaded.1) else mret tt
  end.

Definition main (args : Args) : M unit :=
  expired ← cache_expired;
  loaded ← (if (expired : bool) || refresh_cache args then update_inventory
            else inventory ← read_json CACHE_FILE_PATH;
                 index ← read_json CACHE_INDEX_PATH;
                 mret (inventory, index));
  serve args loaded.

(** *** Sequences of calls of the grouping functions *)

(** One call of [add_instance] or of [add_rds_instance]. *)
Inductive call :=
  | AddInstance (instance : Instance.t) (region : string) (records : option records_map)
  | AddRdsInstance (instance : DBInstance.t) (region : string) (records : option records_map).

Definition run_call (c : call) : M (option (dict * dict)) :=
  match c with
  | AddInstance instance region records => add_instance instance region records
  | AddRdsInstance instance region records => add_rds_instance instance region records
  end.

Definition run_calls (cs : list call) : M unit :=
  for_each cs (λ c, run_call c ;; mret tt).

(** The primary address of the resource of a call: [Return (Some a)] for
    a live resource with the truthy address [a], [Return None] for a
    resource that is not live or has no address, [Raise] when reading the
    address attribute fails. *)
Definition call_dest (c : call) : outcome (option string) :=
  match c with
  | AddInstance instance _ _ =>
      if negb (String.eqb (Instance.state instance) "running") then Return None
      else match select_dest instance with
           | Raise e => Raise e
           | Return PyNone => Return None
           | Return (PyStr dest) =>
               if negb (truthy (PyStr dest)) then Return None else Return (Some dest)
           end
  | AddRdsInstance instance _ _ =>
      if negb (String.eqb (DBInstance.status instance) "available") then Return None
      else match (DBInstance.endpoint instance).1 with
           | PyNone => Return None
           | PyStr dest =>
               if negb (truthy (PyStr dest)) then Return None else Return (Some dest)
           end
  end.

Definition call_region (c : call) : string :=
  match c with
  | AddInstance _ region _ => region
  | AddRdsInstance _ region _ => region
  end.

Definition call_id (c : call) : string :=
  match c with
  | AddInstance instance _ _ => Instance.id instance
  | AddRdsInstance instance _ _ => DBInstance.id instance
  end.

(** The index entry a call writes: [[region, instance.id]]. *)
Definition call_entry (c : call) : list string := [call_region c; call_id c].

(** The last call of the sequence that resolves to the address [a]. *)
Fixpoint last_writer (a : string) (cs : list call) : option call :=
  match cs with
  | [] => None
  | c :: rest =>
      match last_writer a rest with
      | Some c' => Some c'
      | None =>
          match call_dest c with
          | Return (Some d) => if decide (d = a) then Some c else None
          | _ => None
          end
      end
  end.

End Ec2.

(** * The configured regions, and the variables of a host *)

(** The characters [\s] matches in a byte string, which are also those
    [str.strip()] removes: space, tab, line feed, carriage return, form
    feed, vertical tab. *)
Definition whitespace : list ascii :=
  ascii_of_nat <$> [32; 9; 10; 13; 12; 11]%nat.

Definition isspace (c : ascii) : bool := bool_decide (c ∈ whitespace).

Fixpoint lstrip (s : string) : string :=
  match s with
  | EmptyString => EmptyString
  | String c rest => if isspace c then lstrip rest else s
  end.

Fixpoint rstrip (s : string) : string :=
  match s with
  | EmptyString => EmptyString
  | String c rest =>
      match rstrip rest with
      | EmptyString => if isspace c then EmptyString else String c EmptyString
      | kept => String c kept
      end
  end.

(** [s.strip()]. *)
Definition strip (s : string) : string := rstrip (lstrip s).

(** [s.replace(old, new)] for one-character [old] and [new]. *)
Definition replace_char (old new : ascii) (s : string) : string :=
  map_string (λ c, if Ascii.eqb c old then new else c) s.

(** [sep.join(l)]. *)
Fixpoint join (sep : string) (l : list string) : string :=
  match l with
  | [] => EmptyString
  | [x] => x
  | x :: rest => x +:+ sep +:+ join sep rest
  end.

(** [re.split(", |,|\s", s)]: at a comma followed by a space both are
    the separator, otherwise a comma or a whitespace character alone is;
    the pieces between separators are returned, empty ones too. *)
Fixpoint re_split_regions (s : string) : list string :=
  match s with
  | EmptyString => [EmptyString]
  | String c rest =>
      if Ascii.eqb c "," then
        match rest with
        | String " " rest' => EmptyString :: re_split_regions rest'
        | _ => EmptyString :: re_split_regions rest
        end
      else if isspace c then EmptyString :: re_split_regions rest
      else match re_split_regions rest with
           | piece :: pieces => String c piece :: pieces
           | [] => [String c EmptyString]
           end
  end.

(** The module-level computation of [REGIONS]: [regions_option] is the
    [regions] option of [ec2.ini] if it is set, [euca_region] the name
    of the region of the Eucalyptus connection, [ec2_regions] the names
    [ec2.regions()] lists. *)
Definition load_regions (regions_option : option string) (euca_host : pyval)
    (euca_region : string) (ec2_regions : list string) : list string :=
  let config_regions :=
    match regions_option with
    | Some v => strip v
    | None => "all"
    end in
  if String.eqb config_regions "all" then
    if truthy euca_host then [euca_region] else ec2_regions
  else re_split_regions config_regions.

(** The value of an attribute in [vars(instance)]: an [int], a [bool],
    a string, [None], an object with a [name] (the region), a dictionary
    of strings (the tags), a list of groups, or anything else. *)
Inductive attr_value :=
  | VInt (z : Z)
  | VBool (b : bool)
  | VStr (s : string)
  | VNone
  | VRegion (name : string)
  | VTags (items : list (string * string))
  | VGroups (groups : list Group.t)
  | VOther.

(** A value of [instance_vars]. *)
Inductive json_value :=
  | JInt (z : Z)
  | JBool (b : bool)
  | JStr (s : string).

Abbreviation vars_map := (gmap string json_value).

(** The body of the loop of [get_host_info] over [vars(instance)], on
    the variables gathered so far.  [None] stands for the exception
    Python raises when the value under [region], [tags] or [groups] is
    not what the branch uses it as. *)
Definition host_var (instance_vars : vars_map) (attribute : string * attr_value)
    : option vars_map :=
  let key := to_safe ("ec2_" +:+ attribute.1) in
  match attribute.2 with
  | VInt z => Some (<[key := JInt z]> instance_vars)
  | VBool b => Some (<[key := JBool b]> instance_vars)
  | VStr value =>
      let instance_vars := <[key := JStr (strip value)]> instance_vars in
      let instance_vars :=
        if String.eqb key "ec2_private_ip_address"
        then <["ec2_pretty_private_ip" := JStr (replace_char "." "-" value)]> instance_vars
        else instance_vars in
      let instance_vars :=
        if String.eqb key "ec2_public_ip_address"
        then <["ec2_pretty_public_ip" := JStr (replace_char "." "-" value)]> instance_vars
        else instance_vars in
      Some instance_vars
  | VNone => Some (<[key := JStr ""]> instance_vars)
  | value =>
      if String.eqb key "ec2_region" then
        match value with
        | VRegion name => Some (<[key := JStr name]> instance_vars)
        | _ => None
        end
      else if String.eqb key "ec2_tags" then
        match value with
        | VTags items =>
            Some (foldl (λ acc kv, <[to_safe ("ec2_tag_" +:+ kv.1) := JStr kv.2]> acc)
                        instance_vars items)
        | _ => None
        end
      else if String.eqb key "ec2_groups" then
        match value with
        | VGroups groups =>
            let group_ids := Group.id <$> groups in
            let group_names := Group.name <$> groups in
            Some (<["ec2_security_group_names" := JStr (join "," group_names)]>
                    (<["ec2_security_group_ids" := JStr (join "," group_ids)]> instance_vars))
        | VTags [] =>
            Some (<["ec2_security_group_names" := JStr ""]>
                    (<["ec2_security_group_ids" := JStr ""]> instance_vars))
        | _ => None
        end
      else Some instance_vars
  end.

(** The dictionary [get_host_info] dumps for the attributes of the
    instance, taken in the order [vars(instance)] lists them. *)
Fixpoint host_vars_from (instance_vars : vars_map) (attributes : list (string * attr_value))
    : option vars_map :=
  match attributes with
  | [] => Some instance_vars
  | attribute :: rest =>
      match host_var instance_vars attribute with
      | Some instance_vars => host_vars_from instance_vars rest
      | None => None
      end
  end.

Definition host_vars (attributes : list (string * attr_value)) : option vars_map :=
  host_vars_from ∅ attributes.

(** A connection of [get_instance], as its [get_all_instances]. *)
Abbreviation ec2_query := (list string → list Reservation.t).

(** The two loops of [get_instance]: the first instance met is
    returned, [None] when there is none. *)
Fixpoint first_instance (reservations : list Reservation.t) : option Instance.t :=
  match reservations with
  | [] => None
  | reservation :: rest =>
      match Reservation.instances reservation with
      | instance :: _ => Some instance
      | [] => first_instance rest
      end
  end.

Definition get_instance (cfg : Config) (connect_euca : ec2_query)
    (connect_to_region : string → option ec2_query) (region instance_id : string)
    : M (option Instance.t) :=
  let conn :=
    if EUCALYPTUS cfg then Some connect_euca else connect_to_region region in
  match conn with
  | None =>
      print (Text ("region name: " +:+ region +:+
                   " likely not supported, or AWS is down.  connection to region failed.")) ;;
      sys_exit 1
  | Some get_all_instances => mret (first_instance (get_all_instances [instance_id]))
  end.

(** * Specification vocabulary *)

(** The computation [m] returns normally from every store and relates
    the store it starts in to the one it leaves by [R]. *)
Definition runs {A} (R : Store → Store → Prop) (m : M A) : Prop :=
  ∀ s, ∃ s' a, m s = (s', Return a) ∧ R s s'.

(** What the grouping statements of a call with address [a] may do to
    the store: the index, the files and the clock are kept, and a group
    that changed has a name in [P] and holds, besides what it held, only
    [a]. *)
Definition grouped (a : string) (P : string → Prop) (s s' : Store) : Prop :=
  index s' = index s ∧ fs s' = fs s ∧ clock s' = clock s ∧
  ∀ g l, inventory s' !! g = Some l →
    inventory s !! g = Some l ∨
    (P g ∧ ∀ x, x ∈ l → x = a ∨ ∃ l0, inventory s !! g = Some l0 ∧ x ∈ l0).

(** The effect of a whole call that adds the address [a]. *)
Definition added (a : string) (entry : list string) (P : string → Prop)
    (s s' : Store) : Prop :=
  index s' = <[a := entry]> (index s) ∧ fs s' = fs s ∧ clock s' = clock s ∧
  ∀ g l, inventory s' !! g = Some l →
    inventory s !! g = Some l ∨
    (P g ∧ ∀ x, x ∈ l → x = a ∨ ∃ l0, inventory s !! g = Some l0 ∧ x ∈ l0).

(** The prefixes of the group names built with [to_safe]. *)
Definition prefixes : list string :=
  ["type_"; "key_"; "security_group_"; "tag_"; "profile_"; "rds_";
   "rds_parameter_group_"].

(** A group name made of a fixed prefix and a sanitized value. *)
Definition prefixed_safe (g : string) : Prop :=
  ∃ p v, p ∈ prefixes ∧ g = p +:+ to_safe v.

(** The group names a call may write. *)
Definition call_groups (c : call) (g : string) : Prop :=
  match c with
  | AddInstance instance region records =>
      g = Instance.id instance ∨ g = region ∨ g = Instance.placement instance ∨
      (∃ m, records_truthy records = Some m ∧ g ∈ get_instance_route53_names instance m) ∨
      prefixed_safe g
  | AddRdsInstance instance region records =>
      g = DBInstance.id instance ∨ g = region ∨
      g = DBInstance.availability_zone instance ∨
      prefixed_safe g
  end.

(** Every address listed in a group of the inventory is a key of the
    index. *)
Definition indexed (s : Store) : Prop :=
  ∀ g l x, inventory s !! g = Some l → x ∈ l → is_Some (index s !! x).

Definition empty_store (files : gmap string node) (now : Z) : Store :=
  {| inventory := ∅; index := ∅; fs := files; clock := now; stdout := [] |}.

(** Reading the address attribute of the resource succeeds. *)
Definition resolves (cfg : Config) (c : call) : Prop :=
  ∃ o, call_dest cfg c = Return o.

(** The resource is live and has a truthy primary address. *)
Definition live_addressed (cfg : Config) (c : call) : Prop :=
  ∃ a, call_dest cfg c = Return (Some a).

(** The number of times the address [a] occurs among the keys of [d]. *)
Definition key_count (a : string) (d : dict) : nat :=
  length (filter (λ k, k = a) (map_to_list d).*1).

(** ** The groups of one call, as a list *)

(** [d[key].append(dest)] for each key of the list, in its order. *)
Definition append_all (keys : list string) (dest : string) (d : dict) : dict :=
  foldl (λ acc key, append_item key dest acc) d keys.

(** The group names [add_instance] appends the address to after the
    group of the instance id, in the order of its statements. *)
Definition instance_group_names (instance : Instance.t) (region : string)
    (records : option records_map) : list string :=
  [region; Instance.placement instance;
   to_safe ("type_" +:+ Instance.instance_type instance)]
  ++ (match Instance.key_name instance with
      | PyStr k => if truthy (PyStr k) then [to_safe ("key_" +:+ k)] else []
      | PyNone => []
      end)
  ++ (match Instance.groups instance with
      | Some gs => (λ group, to_safe ("security_group_" +:+ Group.name group)) <$> gs
      | None => []
      end)
  ++ ((λ kv : string * string, to_safe ((("tag_" +:+ kv.1) +:+ "=") +:+ kv.2))
        <$> Instance.tags instance)
  ++ (match records_truthy records with
      | Some m => get_instance_route53_names instance m
      | None => []
      end)
  ++ (match Instance.instance_profile instance with
      | Some profile =>
          [to_safe ("profile_" +:+ last_item (split "/" (Profile.arn profile)))]
      | None => []
      end).

Definition rds_group_names (instance : DBInstance.t) (region : string) : list string :=
  [region; DBInstance.availability_zone instance;
   to_safe ("type_" +:+ DBInstance.instance_class instance)]
  ++ (match DBInstance.security_group instance with
      | Some (Some g) => [to_safe ("security_group_" +:+ Group.name g)]
      | _ => []
      end)
  ++ [to_safe ("rds_" +:+ DBInstance.engine instance);
      to_safe ("rds_parameter_group_" +:+
               ParameterGroup.name (DBInstance.parameter_group instance))].

Definition call_group_names (c : call) : list string :=
  match c with
  | AddInstance instance region records => instance_group_names instance region records
  | AddRdsInstance instance region _ => rds_group_names instance region
  end.

(** The lines a call prints: the two of the warning about an old boto
    when the security groups cannot be read. *)
Definition call_warnings (c : call) : list doc :=
  match c with
  | AddInstance instance _ _ =>
      match Instance.groups instance with
      | Some _ => []
      | None =>
          [Text "Using older version of Boto, won't be able to inventory by security group.";
           Text "Please upgrade to a version of boto >= 2.3.0"]
      end
  | AddRdsInstance instance _ _ =>
      match DBInstance.security_group instance with
      | Some _ => []
      | None =>
          [Text "Using older version of boto, won't be able to inventory by security group.";
           Text "Please upgrade to a version of boto >= 2.3.0"]
      end
  end.

(** The computation appends [dest] to the groups [keys], prints [out]
    and does nothing else. *)
Definition appends (keys : list string) (dest : string) (out : list doc) (m : M unit) : Prop :=
  ∀ s, m s = ({| inventory := append_all keys dest (inventory s);
                 index := index s; fs := fs s; clock := clock s;
                 stdout := stdout s ++ out |}, Return tt).

(** The number of times [g] is listed in [keys]. *)
Definition occurrences (g : string) (keys : list string) : nat :=
  length (filter (λ k, k = g) keys).

(** ** The calls of a refresh *)

(** The connection of [get_instances_by_region], as the reservations it
    lists. *)
Definition ec2_connection (cfg : Config) (aws : Provider) (region : string)
    : option (list Reservation.t) :=
  if EUCALYPTUS cfg then Some (connect_euca aws) else ec2_connect_to_region aws region.

(** Both fetchers of a region get an answer: the EC2 connection exists
    and RDS raises no [BotoServerError]. *)
Definition region_ok (cfg : Config) (aws : Provider) (region : string) : Prop :=
  is_Some (ec2_connection cfg aws region) ∧
  ∀ msg, rds_connect_to_region aws region ≠ Some (inl msg).

Definition ec2_calls (cfg : Config) (aws : Provider) (region : string) : list call :=
  match ec2_connection cfg aws region with
  | Some reservations =>
      concat ((λ reservation,
                 (λ instance, AddInstance instance region None)
                   <$> Reservation.instances reservation) <$> reservations)
  | None => []
  end.

Definition rds_calls (aws : Provider) (records : option records_map) (region : string)
    : list call :=
  match rds_connect_to_region aws region with
  | Some (inr instances) => (λ instance, AddRdsInstance instance region records) <$> instances
  | _ => []
  end.

(** The calls of the grouping functions a refresh makes when every
    region answers: region by region, the instances first. *)
Definition refresh_calls (cfg : Config) (aws : Provider) (records : option records_map)
    : list call :=
  concat ((λ region, ec2_calls cfg aws region ++ rds_calls aws records region)
            <$> REGIONS cfg).

(** The store [update_inventory] starts its fetches from: two fresh
    dictionaries. *)
Definition fresh (s : Store) : Store :=
  {| inventory := ∅; index := ∅; fs := fs s; clock := clock s; stdout := stdout s |}.

(** The end of [update_inventory]: the two cache files are written and
    the dictionaries returned. *)
Definition write_cache (cfg : Config) : M (dict * dict) :=
  s ← get_store;
  write_file (CACHE_FILE_PATH cfg) (JsonObj (inventory s)) ;;
  s ← get_store;
  write_file (CACHE_INDEX_PATH cfg) (JsonObj (index s)) ;;
  s ← get_store;
  mret (inventory s, index s).

(** The computation leaves the files and the clock alone, whatever its
    outcome. *)
Definition keeps_files {A} (m : M A) : Prop :=
  ∀ s, fs (m s).1 = fs s ∧ clock (m s).1 = clock s.

(** The start of [update_inventory], up to the end of the loop over the
    regions. *)
Definition fetch (cfg : Config) (aws : Provider) : M unit :=
  set_inventory ∅ ;;
  set_index ∅ ;;
  records ← (if USE_ROUTE53 cfg then r ← get_route53_records aws; mret (Some r)
             else mret None);
  for_each (REGIONS cfg) (λ region,
    get_instances_by_region cfg aws region records ;;
    get_rds_instances_by_region aws region records).

(** The store with other files. *)
Definition with_fs (f : gmap string node) (s : Store) : Store :=
  {| inventory := inventory s; index := index s; fs := f; clock := clock s;
     stdout := stdout s |}.

(** The files after the cache file, then after both files, have been
    written from the store [s]. *)
Definition cache_written (cfg : Config) (s : Store) : gmap string node :=
  <[CACHE_FILE_PATH cfg := RegularFile (clock s) (JsonObj (inventory s))]> (fs s).

Definition both_written (cfg : Config) (s : Store) : gmap string node :=
  <[CACHE_INDEX_PATH cfg := RegularFile (clock s) (JsonObj (index s))]> (cache_written cfg s).

(** ** Region names and variable names *)

(** A character [re_split_regions] splits at. *)
Definition is_separator (c : ascii) : bool := Ascii.eqb c "," || isspace c.

Fixpoint separator_free (s : string) : bool :=
  match s with
  | EmptyString => true
  | String c rest => negb (is_separator c) && separator_free rest
  end.

(** A variable name Ansible gets: it starts with [ec2_] and sanitizing
    leaves it as it is. *)
Definition var_name (k : string) : Prop :=
  String.prefix "ec2_" k = true ∧ to_safe k = k.

(** Every variable name of the dictionary is one. *)
Definition var_names (m : gmap string json_value) : Prop :=
  ∀ k, is_Some (m !! k) → var_name k.

(** The value of the attribute has the type the branch of
    [get_host_info] for its name uses it as. *)
Definition well_typed (attribute : string * attr_value) : Prop :=
  match attribute.2 with
  | VInt _ | VBool _ | VStr _ | VNone => True
  | value =>
      let key := to_safe ("ec2_" +:+ attribute.1) in
      (key = "ec2_region" → ∃ name, value = VRegion name) ∧
      (key = "ec2_tags" → ∃ items, value = VTags items) ∧
      (key = "ec2_groups" → ∃ groups, value = VGroups groups)
  end.

(** A string of whitespace characters only. *)
Fixpoint all_space (s : string) : bool :=
  match s with
  | EmptyString => true
  | String c rest => isspace c && all_space rest
  end.

(** * Sample data *)

(** The settings of the script when [ec2.ini] sets nothing, for one
    region. *)
Definition default_config : Config := {|
  CACHE_MAX_AGE := 300;
  CACHE_BASE_PATH := "/tmp";
  EUCALYPTUS := false;
  EUCALYPTUS_HOST := PyNone;
  REGIONS := ["us-east-1"];
  HOST_ADDRESS_VARIABLE := "public_dns_name";
  VPC_HOST_ADDRESS_VARIABLE := "private_dns_name";
  USE_ROUTE53 := false
|}.

(** A running instance in a VPC subnet. *)
Definition vpc_instance (id subnet private_dns : string) : Instance.t := {|
  Instance.id := id;
  Instance.state := "running";
  Instance.subnet_id := PyStr subnet;
  Instance.public_dns_name := Some (PyStr "");
  Instance.private_dns_name := Some (PyStr private_dns);
  Instance.ip_address := Some PyNone;
  Instance.private_ip_address := Some (PyStr "10.0.0.5");
  Instance.placement := "us-east-1a";
  Instance.instance_type := "m1.small";
  Instance.key_name := PyStr "deploy key";
  Instance.groups := Some [{| Group.id := "sg-1"; Group.name := "web" |}];
  Instance.tags := [("Name", "web 1")];
  Instance.instance_profile := None
|}.

(** Two instances of two VPCs with the same address range have the same
    private DNS name. *)
Definition web_a : Instance.t := vpc_instance "i-0a1" "subnet-1" "ip-10-0-0-5.ec2.internal".
Definition web_b : Instance.t := vpc_instance "i-0b2" "subnet-2" "ip-10-0-0-5.ec2.internal".

(** A running instance outside a VPC that has no public DNS name. *)
Definition unaddressed : Instance.t := {|
  Instance.id := "i-0c3";
  Instance.state := "running";
  Instance.subnet_id := PyNone;
  Instance.public_dns_name := Some (PyStr "");
  Instance.private_dns_name := Some (PyStr "ip-10-0-0-9.ec2.internal");
  Instance.ip_address := Some PyNone;
  Instance.private_ip_address := Some (PyStr "10.0.0.9");
  Instance.placement := "us-east-1a";
  Instance.instance_type := "m1.small";
  Instance.key_name := PyNone;
  Instance.groups := None;
  Instance.tags := [];
  Instance.instance_profile := None
|}.

Definition database (id address : string) : DBInstance.t := {|
  DBInstance.id := id;
  DBInstance.status := "available";
  DBInstance.endpoint := (PyStr address, 3306);
  DBInstance.availability_zone := "us-east-1b";
  DBInstance.instance_class := "db.m1.small";
  DBInstance.security_group := Some (Some {| Group.id := "sg-2"; Group.name := "default" |});
  DBInstance.engine := "mysql";
  DBInstance.parameter_group := {| ParameterGroup.name := "default.mysql5.5" |}
|}.

Definition call_a : call := AddInstance web_a "us-east-1" None.
Definition call_b : call := AddInstance web_b "us-east-1" None.
Definition call_db : call :=
  AddRdsInstance (database "orders" "orders.example.rds.amazonaws.com") "us-east-1" None.

Definition shared_address : string := "ip-10-0-0-5.ec2.internal".

(** A region name as a Eucalyptus site may have it. *)
Definition site_region : string := "eu.site".

Definition one_zone : Route53.t := {|
  Route53.get_zones := [{| Zone.id := "Z1"; Zone.name := "example.com." |}];
  Route53.get_all_rrsets := λ _,
    [{| RecordSet.name := "web.example.com.";
        RecordSet.resource_records := ["10.0.0.5"] |}]
|}.

(** A provider with one hosted zone; the answers of the other services
    do not matter where it is used. *)
Definition route53_provider : Provider := {|
  connect_euca := [];
  ec2_connect_to_region := λ _, Some [{| Reservation.instances := [web_a] |}];
  rds_connect_to_region := λ _, None;
  connect_route53 := one_zone;
  instance_vars := λ _ _, mret (Text "{}")
|}.

Definition route53_config : Config := {|
  CACHE_MAX_AGE := 300;
  CACHE_BASE_PATH := "/tmp";
  EUCALYPTUS := false;
  EUCALYPTUS_HOST := PyNone;
  REGIONS := ["us-east-1"];
  HOST_ADDRESS_VARIABLE := "public_dns_name";
  VPC_HOST_ADDRESS_VARIABLE := "private_dns_name";
  USE_ROUTE53 := true
|}.

(** The cache directory with both files written at time [1000]. *)
Definition cached_files : gmap string node :=
  {[ "/tmp/ansible-ec2.cache" := RegularFile 1000 (JsonObj {[ "i-0a1" := [shared_address] ]});
     "/tmp/ansible-ec2.index" :=
       RegularFile 1000 (JsonObj {[ shared_address := ["us-east-1"; "i-0a1"] ]}) ]}.

Definition no_zones : Route53.t := {|
  Route53.get_zones := [];
  Route53.get_all_rrsets := λ _, []
|}.

(** A provider whose regions all answer: one reservation with [web_a]
    and [unaddressed], and one database. *)
Definition healthy_provider : Provider := {|
  connect_euca := [];
  ec2_connect_to_region := λ _, Some [{| Reservation.instances := [web_a; unaddressed] |}];
  rds_connect_to_region := λ _,
    Some (inr [database "orders" "orders.example.rds.amazonaws.com"]);
  connect_route53 := no_zones;
  instance_vars := λ _ _, mret (Text "{}")
|}.

(** A provider that knows no region. *)
Definition no_region_provider : Provider := {|
  connect_euca := [];
  ec2_connect_to_region := λ _, None;
  rds_connect_to_region := λ _, None;
  connect_route53 := no_zones;
  instance_vars := λ _ _, mret (Text "{}")
|}.

(** A provider whose RDS service is down. *)
Definition rds_down_provider : Provider := {|
  connect_euca := [];
  ec2_connect_to_region := λ _, Some [{| Reservation.instances := [web_a] |}];
  rds_connect_to_region := λ _, Some (inl "ServiceUnavailable");
  connect_route53 := no_zones;
  instance_vars := λ _ _, mret (Text "{}")
|}.

(** A cache directory where the index path is a directory. *)
Definition blocked_files : gmap string node :=
  {[ "/tmp/ansible-ec2.index" := Directory ]}.

Definition list_args : Args := {| list_mode := true; host := PyNone; refresh_cache := false |}.
Definition refresh_args : Args := {| list_mode := true; host := PyNone; refresh_cache := true |}.

(** Some of the variables of a boto instance. *)
Definition sample_attributes : list (string * attr_value) :=
  [("id", VStr "i-0a1"); ("private_ip_address", VStr " 10.0.0.5 ");
   ("region", VRegion "us-east-1"); ("tags", VTags [("Name", "web 1")]);
   ("groups", VGroups [{| Group.id := "sg-1"; Group.name := "web" |}]);
   ("ami_launch_index", VInt 0); ("monitored", VBool false);
   ("kernel", VNone); ("connection", VOther)].

Definition sample_record_set : RecordSet.t := {|
  RecordSet.name := "web.example.com.";
  RecordSet.resource_records := ["10.0.0.5"; "10.0.0.6"]
|}.

(** Route53 records for the addresses of [web_a]; one name points to
    both its private address and its private DNS name. *)
Definition sample_records : records_map :=
  {[ "10.0.0.5" := {[ "web.example.com" ]};
     "ip-10-0-0-5.ec2.internal" := {[ "internal.example.com"; "web.example.com" ]};
     "10.0.0.77" := {[ "db.example.com" ]} ]}.

(** * Properties *)

(** ** Lemmas on [to_safe] *)

Lemma append_assoc (u v w : string) : (u +:+ v) +:+ w = u +:+ (v +:+ w).
Proof.
  induction u as [|c u IH]; [reflexivity|].
  change (String c ((u +:+ v) +:+ w) = String c (u +:+ v +:+ w)).
  by rewrite IH.
Qed.

Lemma safe_class_occurs (c : ascii) :
  negated_class_matches safe_class c = negb (occurs c letters_digits_hyphen).
Proof.
  destruct c as [[] [] [] [] [] [] [] []]; reflexivity.
Qed.

Lemma to_safe_cons (c : ascii) (w : string) :
  to_safe (String c w) = String (sanitize_char c) (to_safe w).
Proof.
  unfold to_safe at 1. simpl re_sub_negated_class.
  rewrite safe_class_occurs. unfold sanitize_char.
  destruct (occurs c letters_digits_hyphen); reflexivity.
Qed.

Lemma to_safe_map (w : string) : to_safe w = map_string sanitize_char w.
Proof.
  induction w as [|c w IH]; [reflexivity|].
  rewrite to_safe_cons, IH. reflexivity.
Qed.

Lemma sanitize_char_idem (c : ascii) : sanitize_char (sanitize_char c) = sanitize_char c.
Proof.
  destruct c as [[] [] [] [] [] [] [] []]; reflexivity.
Qed.

Lemma to_safe_app (u v : string) : to_safe (u +:+ v) = to_safe u +:+ to_safe v.
Proof.
  induction u as [|c u IH]; [reflexivity|].
  change (String c u +:+ v) with (String c (u +:+ v)).
  rewrite !to_safe_cons, IH. reflexivity.
Qed.

(** C6. Sanitization is idempotent: [to_safe (to_safe w) = to_safe w] for
    every string [w]. *)
Theorem to_safe_idempotent (w : string) : to_safe (to_safe w) = to_safe w.
Proof.
  induction w as [|c w IH]; [reflexivity|].
  rewrite !to_safe_cons, sanitize_char_idem, IH. reflexivity.
Qed.

(** ** The monad *)

Lemma bind_return {A B} (m : M A) (f : A → M B) (s s' : Store) (a : A) :
  m s = (s', Return a) → (m ≫= f) s = f a s'.
Proof. intros H. unfold mbind, M_bind. rewrite H. reflexivity. Qed.

Lemma bind_raise {A B} (m : M A) (f : A → M B) (s s' : Store) (e : exn) :
  m s = (s', Raise e) → (m ≫= f) s = (s', Raise e).
Proof. intros H. unfold mbind, M_bind. rewrite H. reflexivity. Qed.

Lemma bind_lift {A B} (o : outcome A) (f : A → M B) (s : Store) :
  (lift o ≫= f) s = match o with Return a => f a s | Raise e => (s, Raise e) end.
Proof. by destruct o. Qed.

Lemma runs_ret {A} (R : Store → Store → Prop) `{!Reflexive R} (a : A) :
  runs R (mret a).
Proof. intros s. exists s, a. split; [reflexivity | apply reflexivity]. Qed.

Lemma runs_bind {A B} (R : Store → Store → Prop) `{!Transitive R}
    (m : M A) (f : A → M B) :
  runs R m → (∀ a, runs R (f a)) → runs R (m ≫= f).
Proof.
  intros Hm Hf s.
  destruct (Hm s) as (s1 & a & Em & R1).
  destruct (Hf a s1) as (s2 & b & Ef & R2).
  exists s2, b. split; [|by etrans].
  by rewrite (bind_return _ _ _ _ _ Em).
Qed.

Lemma runs_for_each {A} (R : Store → Store → Prop) `{!Reflexive R} `{!Transitive R}
    (l : list A) (body : A → M unit) :
  (∀ x, x ∈ l → runs R (body x)) → runs R (for_each l body).
Proof.
  induction l as [|x l IH]; intros Hbody; simpl.
  - by apply runs_ret.
  - apply runs_bind; [done | apply Hbody; left | intros _].
    apply IH. intros y Hy. apply Hbody. by right.
Qed.

Lemma runs_try_except {A} (R : Store → Store → Prop) (body : M A)
    (handler : exn → option (M A)) :
  runs R body → runs R (try_except body handler).
Proof.
  intros Hb s. destruct (Hb s) as (s' & a & E & HR).
  exists s', a. unfold try_except. by rewrite E.
Qed.

Lemma runs_try_except_raise {A B} (R : Store → Store → Prop) (e : exn)
    (f : B → M A) (h : M A) (handler : exn → option (M A)) :
  handler e = Some h → runs R h → runs R (try_except (raise e ≫= f) handler).
Proof.
  intros Hh Hr s. destruct (Hr s) as (s' & a & E & HR).
  exists s', a. unfold try_except, mbind, M_bind, raise. by rewrite Hh.
Qed.

(** ** The grouping statements *)

Global Instance grouped_refl a P : Reflexive (grouped a P).
Proof. intros s. repeat split; auto. Qed.

Global Instance grouped_trans a P : Transitive (grouped a P).
Proof.
  intros s1 s2 s3 (I1 & F1 & C1 & G1) (I2 & F2 & C2 & G2).
  repeat split; try congruence.
  intros g l Hl. destruct (G2 g l Hl) as [H2 | [HP H2]].
  - apply G1, H2.
  - right. split; [done|]. intros x Hx.
    destruct (H2 x Hx) as [-> | (l0 & Hl0 & Hx0)]; [by left|].
    destruct (G1 g l0 Hl0) as [H1 | [_ H1]].
    + right. eauto.
    + apply H1, Hx0.
Qed.

Lemma grouped_ret {A} a P (x : A) : runs (grouped a P) (mret x).
Proof. apply runs_ret, _. Qed.

Lemma grouped_bind {A B} a P (m : M A) (f : A → M B) :
  runs (grouped a P) m → (∀ x, runs (grouped a P) (f x)) → runs (grouped a P) (m ≫= f).
Proof. apply runs_bind, _. Qed.

Lemma grouped_for_each {A} a P (l : list A) (body : A → M unit) :
  (∀ x, x ∈ l → runs (grouped a P) (body x)) → runs (grouped a P) (for_each l body).
Proof. apply runs_for_each; apply _. Qed.

Lemma runs_print a P (line : doc) : runs (grouped a P) (print line).
Proof. intros s. eexists _, tt. split; [reflexivity|]. repeat split; auto. Qed.

Lemma runs_inventory_append a (P : string → Prop) (key : string) :
  P key → runs (grouped a P) (inventory_append key a).
Proof.
  intros HP s. eexists _, tt. split; [reflexivity|].
  repeat split; simpl. intros g l.
  unfold append_item. destruct (decide (key = g)) as [<- | Hne].
  - rewrite lookup_insert_eq. intros [= <-]. right. split; [done|].
    intros x [Hx | Hx]%elem_of_app.
    + right. destruct (inventory s !! key) as [l0|] eqn:E; simpl in Hx.
      * eauto.
      * by apply elem_of_nil in Hx.
    + left. by apply list_elem_of_singleton in Hx.
  - rewrite lookup_insert_ne by done. auto.
Qed.

Lemma runs_inventory_set a (P : string → Prop) (key : string) :
  P key → runs (grouped a P) (inventory_set key [a]).
Proof.
  intros HP s. eexists _, tt. split; [reflexivity|].
  repeat split; simpl. intros g l.
  unfold setitem. destruct (decide (key = g)) as [<- | Hne].
  - rewrite lookup_insert_eq. intros [= <-]. right. split; [done|].
    intros x Hx. left. by apply list_elem_of_singleton in Hx.
  - rewrite lookup_insert_ne by done. auto.
Qed.

Lemma to_safe_prefix (p v : string) : p ∈ prefixes → to_safe (p +:+ v) = p +:+ to_safe v.
Proof.
  intros Hp. rewrite to_safe_app. f_equal.
  unfold prefixes in Hp.
  repeat (apply elem_of_cons in Hp as [-> | Hp]; [reflexivity|]).
  by apply elem_of_nil in Hp.
Qed.

Lemma prefixed_safe_intro (p v : string) : p ∈ prefixes → prefixed_safe (to_safe (p +:+ v)).
Proof. intros Hp. exists p, v. split; [done | by apply to_safe_prefix]. Qed.

Lemma in_prefixes (p : string) : In p prefixes → p ∈ prefixes.
Proof. apply list_elem_of_In. Qed.

Ltac prefix_key :=
  apply prefixed_safe_intro, in_prefixes; unfold prefixes; simpl;
  repeat first [left; reflexivity | right].

Lemma add_instance_groups_runs (instance : Instance.t) (region : string)
    (records : option records_map) (dest : string) :
  runs (grouped dest (call_groups (AddInstance instance region records)))
       (add_instance_groups instance region records dest).
Proof.
  assert (HS : ∀ g, prefixed_safe g →
            call_groups (AddInstance instance region records) g)
    by (intros g Hg; simpl; tauto).
  unfold add_instance_groups.
  apply grouped_bind; [apply runs_inventory_append; simpl; auto | intros _].
  apply grouped_bind; [apply runs_inventory_append; simpl; auto | intros _].
  apply grouped_bind; [apply runs_inventory_append, HS; prefix_key | intros _].
  apply grouped_bind; [| intros _].
  { destruct (Instance.key_name instance) as [|k]; [apply grouped_ret|].
    destruct (truthy (PyStr k)); [|apply grouped_ret].
    apply runs_inventory_append, HS. prefix_key. }
  apply grouped_bind; [| intros _].
  { unfold instance_groups. destruct (Instance.groups instance) as [gs|].
    - apply runs_try_except, grouped_bind; [apply grouped_ret | intros gs'].
      apply grouped_for_each. intros group _.
      apply runs_inventory_append, HS. prefix_key.
    - eapply runs_try_except_raise; [reflexivity|].
      apply grouped_bind; [apply runs_print | intros _; apply runs_print]. }
  apply grouped_bind; [| intros _].
  { apply grouped_for_each. intros [k v] _. simpl.
    apply runs_inventory_append, HS.
    rewrite !append_assoc. prefix_key. }
  apply grouped_bind; [| intros _].
  { destruct (records_truthy records) as [m|] eqn:E; [|apply grouped_ret].
    apply grouped_for_each. intros name Hname.
    apply runs_inventory_append. simpl. right; right; right; left. eauto. }
  destruct (Instance.instance_profile instance) as [profile|]; [|apply grouped_ret].
  apply runs_inventory_append, HS. prefix_key.
Qed.

Lemma add_rds_instance_groups_runs (instance : DBInstance.t) (region : string)
    (records : option records_map) (dest : string) :
  runs (grouped dest (call_groups (AddRdsInstance instance region records)))
       (add_rds_instance_groups instance region dest).
Proof.
  assert (HS : ∀ g, prefixed_safe g →
            call_groups (AddRdsInstance instance region records) g)
    by (intros g Hg; simpl; tauto).
  unfold add_rds_instance_groups.
  apply grouped_bind; [apply runs_inventory_append; simpl; auto | intros _].
  apply grouped_bind; [apply runs_inventory_append; simpl; auto | intros _].
  apply grouped_bind; [apply runs_inventory_append, HS; prefix_key | intros _].
  apply grouped_bind; [| intros _].
  { unfold instance_security_group.
    destruct (DBInstance.security_group instance) as [sg|].
    - apply runs_try_except, grouped_bind; [apply grouped_ret | intros sg'].
      destruct sg' as [g|]; [|apply grouped_ret].
      apply runs_inventory_append, HS. prefix_key.
    - eapply runs_try_except_raise; [reflexivity|].
      apply grouped_bind; [apply runs_print | intros _; apply runs_print]. }
  apply grouped_bind; [apply runs_inventory_append, HS; prefix_key | intros _].
  apply runs_inventory_append, HS. prefix_key.
Qed.

(** The statements of a call from the write to the index on. *)
Lemma add_tail_spec (a : string) (entry : list string) (P : string → Prop)
    (key : string) (groups : M unit) (s : Store) :
  P key → runs (grouped a P) groups →
  ∃ s' r,
    (index_set a entry ;; inventory_set key [a] ;; groups ;;
     s ← get_store; mret (Some (inventory s, index s))) s = (s', Return (Some r)) ∧
    added a entry P s s'.
Proof.
  intros HP Hg.
  set (s1 := {| inventory := inventory s; index := setitem a entry (index s);
                fs := fs s; clock := clock s; stdout := stdout s |}).
  assert (Hrun : runs (grouped a P) (inventory_set key [a] ;; groups)).
  { apply grouped_bind; [by apply runs_inventory_set | by intros _]. }
  destruct (Hrun s1) as (s' & [] & E & (I & F & C & G)).
  exists s', (inventory s', index s'). split.
  - rewrite (bind_return _ _ s s1 tt) by reflexivity.
    unfold mbind, M_bind in E |- *.
    destruct (inventory_set key [a] s1) as [s2 [[]|e]]; [|discriminate].
    rewrite E. reflexivity.
  - repeat split; auto.
Qed.

(** ** One call and sequences of calls *)

Section Calls.

Context (cfg : Config).

Lemma run_call_spec (c : call) (s : Store) :
  match call_dest cfg c with
  | Raise e => run_call cfg c s = (s, Raise e)
  | Return None => run_call cfg c s = (s, Return None)
  | Return (Some a) =>
      ∃ s' r, run_call cfg c s = (s', Return (Some r)) ∧
              added a (call_entry c) (call_groups c) s s'
  end.
Proof.
  destruct c as [instance region records | instance region records];
    unfold call_dest, run_call.
  - unfold add_instance.
    destruct (negb (Instance.state instance =? "running")%string); [reflexivity|].
    rewrite bind_lift.
    destruct (select_dest cfg instance) as [[|dest]|e]; try reflexivity.
    destruct (negb (truthy (PyStr dest))); [reflexivity|].
    apply add_tail_spec; [simpl; auto | apply add_instance_groups_runs].
  - unfold add_rds_instance.
    destruct (negb (DBInstance.status instance =? "available")%string); [reflexivity|].
    destruct ((DBInstance.endpoint instance).1) as [|dest]; try reflexivity.
    destruct (negb (truthy (PyStr dest))); [reflexivity|].
    apply add_tail_spec; [simpl; auto | apply add_rds_instance_groups_runs].
Qed.

Lemma run_calls_nil (s : Store) : run_calls cfg [] s = (s, Return tt).
Proof. reflexivity. Qed.

Lemma run_calls_cons (c : call) (cs : list call) (s : Store) :
  run_calls cfg (c :: cs) s =
  match run_call cfg c s with
  | (s1, Return _) => run_calls cfg cs s1
  | (s1, Raise e) => (s1, Raise e)
  end.
Proof.
  unfold run_calls. simpl. unfold mbind, M_bind, mret, M_ret.
  destruct (run_call cfg c s) as [s1 [r|e]]; reflexivity.
Qed.

Lemma added_indexed a entry P (s s' : Store) :
  added a entry P s s' → indexed s → indexed s'.
Proof.
  intros (I & _ & _ & G) Hs g l x Hl Hx. rewrite I.
  destruct (decide (a = x)) as [-> | Hne].
  - rewrite lookup_insert_eq. eauto.
  - rewrite lookup_insert_ne by done.
    destruct (G g l Hl) as [H | [_ H]].
    + eapply Hs; eauto.
    + destruct (H x Hx) as [-> | (l0 & Hl0 & Hx0)]; [done|].
      eapply Hs; eauto.
Qed.

Lemma run_call_indexed (c : call) (s : Store) :
  indexed s → indexed (run_call cfg c s).1.
Proof.
  intros Hs. pose proof (run_call_spec c s) as H.
  destruct (call_dest cfg c) as [[a|]|e].
  - destruct H as (s' & r & -> & Ha). simpl. eapply added_indexed; eauto.
  - by rewrite H.
  - by rewrite H.
Qed.

Lemma run_calls_indexed (cs : list call) (s : Store) :
  indexed s → indexed (run_calls cfg cs s).1.
Proof.
  revert s. induction cs as [|c cs IH]; intros s Hs; [done|].
  rewrite run_calls_cons.
  pose proof (run_call_indexed c s Hs) as H1.
  destruct (run_call cfg c s) as [s1 [r|e]]; simpl in *; auto.
Qed.

(** A sequence of calls that all read their address returns normally,
    and the index then holds, for every address, the entry of the last
    call that resolved to it, or what it held before. *)
Lemma run_calls_index (cs : list call) (s : Store) :
  Forall (resolves cfg) cs →
  ∃ s', run_calls cfg cs s = (s', Return tt) ∧
        fs s' = fs s ∧
        ∀ a, index s' !! a =
             match last_writer cfg a cs with
             | Some c => Some (call_entry c)
             | None => index s !! a
             end.
Proof.
  revert s. induction cs as [|c cs IH]; intros s Hall.
  - exists s. by rewrite run_calls_nil.
  - apply Forall_cons in Hall as [[o Ho] Hall].
    rewrite run_calls_cons. pose proof (run_call_spec c s) as H.
    simpl last_writer. rewrite Ho in H |- *. destruct o as [d|].
    + destruct H as (s1 & r & -> & (I & F & _ & _)).
      destruct (IH s1 Hall) as (s' & E & F' & Hidx).
      exists s'. split; [done|]. split; [congruence|].
      intros a. rewrite Hidx.
      destruct (last_writer cfg a cs); [done|].
      rewrite I. destruct (decide (d = a)) as [-> | Hne].
      * by rewrite lookup_insert_eq.
      * by rewrite lookup_insert_ne.
    + rewrite H. destruct (IH s Hall) as (s' & E & F' & Hidx).
      exists s'. split; [done|]. split; [done|].
      intros a. rewrite Hidx. by destruct (last_writer cfg a cs).
Qed.

Lemma last_writer_dest (a : string) (cs : list call) (c : call) :
  last_writer cfg a cs = Some c → c ∈ cs ∧ call_dest cfg c = Return (Some a).
Proof.
  induction cs as [|c0 cs IH]; simpl; [done|].
  destruct (last_writer cfg a cs) as [c'|].
  - intros [= <-]. destruct IH as [Hin Hd]; [done|]. split; [by right | done].
  - destruct (call_dest cfg c0) as [[d|]|e] eqn:E; try done.
    destruct (decide (d = a)) as [-> | Hne]; [|done].
    intros [= <-]. split; [by left | done].
Qed.

Lemma last_writer_none (a : string) (cs : list call) :
  Forall (λ c, call_dest cfg c ≠ Return (Some a)) cs ↔ last_writer cfg a cs = None.
Proof.
  induction cs as [|c cs IH]; simpl; [done|].
  rewrite Forall_cons, IH. destruct (last_writer cfg a cs) as [c'|].
  - split; [by intros [_ ?] | done].
  - destruct (call_dest cfg c) as [[d|]|e] eqn:E.
    + destruct (decide (d = a)) as [-> | Hne]; [by split; [intros [? _] | ] |].
      split; [done|]. intros _. split; [congruence | done].
    + split; [done|]. intros _. split; [congruence | done].
    + split; [done|]. intros _. split; [congruence | done].
Qed.

Lemma last_writer_app (a : string) (pre post : list call) :
  last_writer cfg a (pre ++ post) =
  match last_writer cfg a post with
  | Some c => Some c
  | None => last_writer cfg a pre
  end.
Proof.
  induction pre as [|c pre IH]; simpl.
  - by destruct (last_writer cfg a post).
  - rewrite IH. by destruct (last_writer cfg a post).
Qed.

Lemma last_writer_split (a : string) (pre post : list call) (c : call) :
  call_dest cfg c = Return (Some a) →
  Forall (λ c', call_dest cfg c' ≠ Return (Some a)) post →
  last_writer cfg a (pre ++ c :: post) = Some c.
Proof.
  intros Hc Hpost. rewrite last_writer_app. simpl.
  apply last_writer_none in Hpost. rewrite Hpost, Hc.
  by rewrite decide_True.
Qed.

Lemma last_writer_member (a : string) (cs : list call) (c : call) :
  c ∈ cs → call_dest cfg c = Return (Some a) → is_Some (last_writer cfg a cs).
Proof.
  intros Hin Hc. destruct (last_writer cfg a cs) eqn:E; [eauto|].
  apply last_writer_none in E. rewrite Forall_forall in E. by destruct (E c Hin).
Qed.

Lemma key_count_present (a : string) (d : dict) :
  is_Some (d !! a) → key_count a d = 1%nat.
Proof.
  intros [v Hv]. unfold key_count.
  pose proof (NoDup_fst_map_to_list d) as Hnd.
  assert (Hin : a ∈ (map_to_list d).*1).
  { apply list_elem_of_fmap. exists (a, v). split; [done|]. by apply elem_of_map_to_list. }
  revert Hnd Hin. generalize ((map_to_list d).*1). intros l.
  induction l as [|k l IH]; intros Hnd Hin.
  - by apply elem_of_nil in Hin.
  - apply NoDup_cons in Hnd as [Hk Hnd]. rewrite filter_cons.
    destruct (decide (k = a)) as [-> | Hne].
    + simpl. f_equal. clear IH Hin Hnd. induction l as [|k l IH]; [done|].
      rewrite filter_cons. apply not_elem_of_cons in Hk as [Hk1 Hk2].
      rewrite decide_False by done. auto.
    + apply elem_of_cons in Hin as [-> | Hin]; [done|]. auto.
Qed.

End Calls.

(** ** The index and the inventory after a refresh *)

Section Claims.

Context (cfg : Config).

(** C5. A live resource whose selected primary address is [None] or the
    empty string makes [add_instance] and [add_rds_instance] return
    (with [None]) without raising, and leaves the whole store, so the
    inventory and the index, as it was. *)
Theorem skip_unaddressable :
  (∀ instance region records s v,
     Instance.state instance = "running" →
     select_dest cfg instance = Return v →
     truthy v = false →
     add_instance cfg instance region records s = (s, Return None)) ∧
  (∀ instance region records s,
     DBInstance.status instance = "available" →
     truthy (DBInstance.endpoint instance).1 = false →
     add_rds_instance instance region records s = (s, Return None)).
Proof.
  split.
  - intros instance region records s v Hst Hv Hf. unfold add_instance.
    rewrite Hst, String.eqb_refl. change (negb true) with false. cbv iota.
    rewrite bind_lift, Hv.
    destruct v as [|d]; [reflexivity|]. by rewrite Hf.
  - intros instance region records s Hst Hf. unfold add_rds_instance.
    rewrite Hst, String.eqb_refl. change (negb true) with false. cbv iota.
    destruct ((DBInstance.endpoint instance).1) as [|d]; [reflexivity|]. by rewrite Hf.
Qed.

(** C4. Each call of [add_instance] or [add_rds_instance] keeps the
    invariant that every address listed in a group of the inventory, the
    group of an instance id among them, is a key of the index; so the
    invariant holds after any sequence of calls that starts from empty
    mappings. *)
Theorem inventory_addresses_indexed :
  (∀ c s, indexed s → indexed (run_call cfg c s).1) ∧
  (∀ cs s, inventory s = ∅ → index s = ∅ →
     ∀ id l x, inventory (run_calls cfg cs s).1 !! id = Some l → x ∈ l →
               is_Some (index (run_calls cfg cs s).1 !! x)).
Proof.
  split; [apply run_call_indexed|].
  intros cs s Hinv _. apply (run_calls_indexed cfg cs s).
  intros g l x Hl. by rewrite Hinv, lookup_empty in Hl.
Qed.

(** C2. The index holds at most one entry for an address, and after a
    sequence of calls it maps an address to the [[region, id]] of the
    last call of the sequence that resolved to it: the last writer wins
    when two or more resources collide. *)
Theorem index_last_writer_wins (pre post : list call) (c : call) (a : string) (s : Store) :
  Forall (resolves cfg) (pre ++ c :: post) →
  call_dest cfg c = Return (Some a) →
  Forall (λ c', call_dest cfg c' ≠ Return (Some a)) post →
  ∃ s', run_calls cfg (pre ++ c :: post) s = (s', Return tt) ∧
        index s' !! a = Some (call_entry c) ∧
        key_count a (index s') = 1%nat ∧
        ∀ entry, index s' !! a = Some entry → entry = call_entry c.
Proof.
  intros Hall Hc Hpost.
  destruct (run_calls_index cfg _ s Hall) as (s' & E & _ & Hidx).
  specialize (Hidx a). rewrite (last_writer_split cfg a pre post c Hc Hpost) in Hidx.
  exists s'. repeat split; [done | done | | congruence].
  apply key_count_present. rewrite Hidx. eauto.
Qed.

(** C1 (amended). After the calls for a sequence of live resources that
    all have a truthy primary address, the address [a] of each of them
    is a key of the index exactly once and maps to the [[region, id]] of
    the last resource of the sequence with the address [a]; that is the
    resource itself when no later one has its address. *)
Theorem index_entry_of_resource (pre post : list call) (c : call) (a : string) (s : Store) :
  Forall (live_addressed cfg) (pre ++ c :: post) →
  call_dest cfg c = Return (Some a) →
  ∃ s', run_calls cfg (pre ++ c :: post) s = (s', Return tt) ∧
        key_count a (index s') = 1%nat ∧
        (∃ c', last_writer cfg a (pre ++ c :: post) = Some c' ∧
               c' ∈ pre ++ c :: post ∧
               call_dest cfg c' = Return (Some a) ∧
               index s' !! a = Some (call_entry c')) ∧
        (Forall (λ c', call_dest cfg c' ≠ Return (Some a)) post →
         index s' !! a = Some (call_entry c)).
Proof.
  intros Hall Hc.
  assert (Hres : Forall (resolves cfg) (pre ++ c :: post)).
  { eapply Forall_impl; [exact Hall|]. intros c' [a' Ha']. by exists (Some a'). }
  destruct (run_calls_index cfg _ s Hres) as (s' & E & _ & Hidx).
  specialize (Hidx a).
  destruct (last_writer_member cfg a (pre ++ c :: post) c) as [c' Hc'];
    [apply elem_of_app; right; left | done |].
  rewrite Hc' in Hidx. destruct (last_writer_dest cfg a _ c' Hc') as [Hin Hd].
  exists s'. repeat split; [done | | by eauto |].
  - apply key_count_present. rewrite Hidx. eauto.
  - intros Hpost. rewrite (last_writer_split cfg a pre post c Hc Hpost) in Hc'.
    congruence.
Qed.

End Claims.

(** ** Instances of the theorems on the sample data *)

Lemma skip_unaddressable_witness :
  (Instance.state unaddressed = "running" ∧
   select_dest default_config unaddressed = Return (PyStr "") ∧
   truthy (PyStr "") = false) ∧
  add_instance default_config unaddressed "us-east-1" None (empty_store ∅ 0)
  = (empty_store ∅ 0, Return None).
Proof.
  split; [repeat split|].
  apply (proj1 (skip_unaddressable default_config)) with (v := PyStr ""); reflexivity.
Defined.

Lemma inventory_addresses_indexed_witness :
  indexed (empty_store ∅ 0) ∧
  indexed (run_call default_config call_a (empty_store ∅ 0)).1 ∧
  (inventory (empty_store ∅ 0) = ∅ ∧ index (empty_store ∅ 0) = ∅) ∧
  ∀ id l x,
    inventory (run_calls default_config [call_a; call_db] (empty_store ∅ 0)).1 !! id
    = Some l →
    x ∈ l →
    is_Some (index (run_calls default_config [call_a; call_db] (empty_store ∅ 0)).1 !! x).
Proof.
  assert (H : indexed (empty_store ∅ 0)).
  { intros g l x Hl. simpl in Hl. by rewrite lookup_empty in Hl. }
  split; [exact H|].
  split; [exact (proj1 (inventory_addresses_indexed default_config) call_a
                   (empty_store ∅ 0) H)|].
  split; [split; reflexivity|].
  exact (proj2 (inventory_addresses_indexed default_config) [call_a; call_db]
           (empty_store ∅ 0) eq_refl eq_refl).
Defined.

Lemma index_last_writer_wins_witness :
  ∃ s', run_calls default_config ([call_a] ++ call_b :: [call_db]) (empty_store ∅ 0)
        = (s', Return tt) ∧
        index s' !! shared_address = Some ["us-east-1"; "i-0b2"] ∧
        key_count shared_address (index s') = 1%nat ∧
        ∀ entry, index s' !! shared_address = Some entry → entry = ["us-east-1"; "i-0b2"].
Proof.
  apply (index_last_writer_wins default_config [call_a] [call_db] call_b shared_address).
  - repeat constructor; eexists; reflexivity.
  - reflexivity.
  - repeat constructor. vm_compute. discriminate.
Defined.

Lemma index_entry_of_resource_witness :
  ∃ s', run_calls default_config ([call_a] ++ call_db :: []) (empty_store ∅ 0)
        = (s', Return tt) ∧
        key_count "orders.example.rds.amazonaws.com" (index s') = 1%nat ∧
        (∃ c', last_writer default_config "orders.example.rds.amazonaws.com"
                 ([call_a] ++ call_db :: []) = Some c' ∧
               c' ∈ [call_a] ++ call_db :: [] ∧
               call_dest default_config c' = Return (Some "orders.example.rds.amazonaws.com") ∧
               index s' !! "orders.example.rds.amazonaws.com" = Some (call_entry c')) ∧
        (Forall (λ c', call_dest default_config c'
                       ≠ Return (Some "orders.example.rds.amazonaws.com")) [] →
         index s' !! "orders.example.rds.amazonaws.com" = Some (call_entry call_db)).
Proof.
  apply (index_entry_of_resource default_config [call_a] [] call_db).
  - repeat constructor; eexists; reflexivity.
  - reflexivity.
Defined.

(** C1 as stated fails when two live resources have the same address:
    [web_a] and [web_b] both resolve to [shared_address], and after the
    two calls the index maps it to the entry of [web_b], not to the
    [[region, id]] of [web_a]. *)
Lemma index_entry_collision :
  Forall (live_addressed default_config) [call_a; call_b] ∧
  call_a ∈ [call_a; call_b] ∧
  call_dest default_config call_a = Return (Some shared_address) ∧
  (run_calls default_config [call_a; call_b] (empty_store ∅ 0)).2 = Return tt ∧
  index (run_calls default_config [call_a; call_b] (empty_store ∅ 0)).1 !! shared_address
  = Some ["us-east-1"; "i-0b2"] ∧
  index (run_calls default_config [call_a; call_b] (empty_store ∅ 0)).1 !! shared_address
  ≠ Some [call_region call_a; call_id call_a].
Proof.
  split; [repeat constructor; eexists; reflexivity|].
  split; [by left|].
  split; [reflexivity|].
  split; [by vm_compute|].
  split; [by vm_compute|].
  vm_compute. discriminate.
Defined.

(** ** Group names *)

Lemma occurs_cons (c d : ascii) (w : string) :
  occurs c (String d w) = Ascii.eqb c d || occurs c w.
Proof. reflexivity. Qed.

Lemma occurs_app (c : ascii) (u v : string) :
  occurs c (u +:+ v) = occurs c u || occurs c v.
Proof.
  induction u as [|d u IH]; [reflexivity|].
  change (String d u +:+ v) with (String d (u +:+ v)).
  by rewrite !occurs_cons, IH, orb_assoc.
Qed.

Lemma sanitize_char_not_dot (c : ascii) : Ascii.eqb "." (sanitize_char c) = false.
Proof.
  destruct c as [[] [] [] [] [] [] [] []]; reflexivity.
Qed.

Lemma to_safe_no_dot (w : string) : occurs "." (to_safe w) = false.
Proof.
  induction w as [|c w IH]; [reflexivity|].
  by rewrite to_safe_cons, occurs_cons, sanitize_char_not_dot, IH.
Qed.

Lemma not_prefixed (g : string) :
  forallb (λ p, negb (String.prefix p g)) prefixes = true → ¬ prefixed_safe g.
Proof.
  intros Hall (p & v & Hp & ->).
  rewrite forallb_forall in Hall. specialize (Hall p).
  rewrite <- list_elem_of_In in Hall. specialize (Hall Hp).
  apply negb_true_iff in Hall.
  assert (Hpre : ∀ u w, String.prefix u (u +:+ w) = true).
  { clear. induction u as [|c u IH]; intros w; [by destruct w|].
    change (String c u +:+ w) with (String c (u +:+ w)). simpl.
    destruct (ascii_dec c c); [apply IH | done]. }
  by rewrite Hpre in Hall.
Qed.

Section Groups.

Context (cfg : Config).

(** C8 (amended). Every group name a call writes into an empty inventory
    is the id of the resource, the region, its availability zone, a
    Route53 name of the instance, or one of the fixed prefixes followed
    by a sanitized value; sanitizing replaces every character that is
    not an ASCII letter, a digit or a hyphen by an underscore and keeps
    the others. *)
Theorem group_names_shape (c : call) (s : Store) (g : string) :
  inventory s = ∅ →
  g ∈ dom (inventory (run_call cfg c s).1) →
  call_groups c g ∧ ∀ w, to_safe w = map_string sanitize_char w.
Proof.
  intros Hs Hg. split; [|apply to_safe_map].
  apply elem_of_dom in Hg as [l Hl].
  pose proof (run_call_spec cfg c s) as H.
  destruct (call_dest cfg c) as [[a|]|e].
  - destruct H as (s' & r & E & (_ & _ & _ & G)). rewrite E in Hl. simpl in Hl.
    destruct (G g l Hl) as [H0 | [HP _]]; [|done].
    by rewrite Hs, lookup_empty in H0.
  - rewrite H in Hl. simpl in Hl. by rewrite Hs, lookup_empty in Hl.
  - rewrite H in Hl. simpl in Hl. by rewrite Hs, lookup_empty in Hl.
Qed.

End Groups.

Lemma group_names_shape_witness :
  (inventory (empty_store ∅ 0) = ∅ ∧
   "type_m1_small" ∈ dom (inventory (run_call default_config call_a (empty_store ∅ 0)).1)) ∧
  call_groups call_a "type_m1_small" ∧ ∀ w, to_safe w = map_string sanitize_char w.
Proof.
  assert (H : "type_m1_small"
              ∈ dom (inventory (run_call default_config call_a (empty_store ∅ 0)).1)).
  { apply elem_of_dom. eexists. vm_compute. reflexivity. }
  split; [split; [reflexivity | exact H]|].
  exact (group_names_shape default_config call_a (empty_store ∅ 0) "type_m1_small"
           eq_refl H).
Defined.

(** C8 as stated fails on the groups of the instance id and of the
    region: the call for [web_a] in the region [site_region] writes the
    groups ["i-0a1"] and ["eu.site"]; the first starts with none of the
    fixed prefixes, and the second keeps its dot, which no sanitized
    value holds. *)
Lemma raw_group_names :
  "i-0a1" ∈ dom (inventory (run_call default_config
                              (AddInstance web_a site_region None) (empty_store ∅ 0)).1) ∧
  ¬ prefixed_safe "i-0a1" ∧
  site_region ∈ dom (inventory (run_call default_config
                                  (AddInstance web_a site_region None) (empty_store ∅ 0)).1) ∧
  ¬ prefixed_safe site_region ∧
  ∀ p v, site_region = p +:+ to_safe v → occurs "." p = true.
Proof.
  split; [apply elem_of_dom; eexists; vm_compute; reflexivity|].
  split; [by apply not_prefixed|].
  split; [apply elem_of_dom; eexists; vm_compute; reflexivity|].
  split; [by apply not_prefixed|].
  intros p v E.
  assert (H : occurs "." site_region = true) by reflexivity.
  rewrite E, occurs_app, to_safe_no_dot, orb_false_r in H. exact H.
Defined.

(** ** Route53 *)

Lemma route53_fold (instance : Instance.t) (m : records_map) (l : list string)
    (acc : gset string) (n : string) :
  n ∈ foldl (λ name_list attrib,
               match getattr instance attrib with
               | Raise _ => name_list
               | Return value =>
                   match records_lookup value m with
                   | Some names => name_list ∪ names
                   | None => name_list
                   end
               end) acc l
  ↔ n ∈ acc ∨ ∃ attrib v names, attrib ∈ l ∧ getattr instance attrib = Return (PyStr v) ∧
                                m !! v = Some names ∧ n ∈ names.
Proof.
  revert acc. induction l as [|attrib l IH]; intros acc; simpl.
  - split; [by left|]. intros [H | (a & v & ns & Ha & _)]; [done|].
    by apply elem_of_nil in Ha.
  - rewrite IH. clear IH. split.
    + intros [Hacc | (a & v & ns & Ha & Hg & Hm & Hn)].
      * destruct (getattr instance attrib) as [[|v]|e] eqn:E; simpl in Hacc; auto.
        destruct (m !! v) as [names|] eqn:Em; auto.
        apply elem_of_union in Hacc as [Hacc | Hn]; [by left|].
        right. exists attrib, v, names. repeat split; auto. by left.
      * right. exists a, v, ns. repeat split; auto. by right.
    + intros [Hacc | (a & v & ns & Ha & Hg & Hm & Hn)].
      * left. destruct (getattr instance attrib) as [[|v]|e]; simpl; auto.
        destruct (m !! v); auto. apply elem_of_union. by left.
      * apply elem_of_cons in Ha as [-> | Ha].
        -- left. rewrite Hg. simpl. rewrite Hm. apply elem_of_union. by right.
        -- right. exists a, v, ns. auto.
Qed.

Lemma route53_names_members (instance : Instance.t) (route53_records : records_map)
    (n : string) :
  n ∈ get_instance_route53_names instance route53_records ↔
  ∃ attrib v names,
    attrib ∈ instance_attributes ∧
    getattr instance attrib = Return (PyStr v) ∧
    route53_records !! v = Some names ∧
    n ∈ names.
Proof.
  unfold get_instance_route53_names. rewrite elem_of_elements. unfold route53_name_set.
  rewrite route53_fold. split.
  - intros [H | H]; [by apply not_elem_of_empty in H | done].
  - by right.
Qed.

(** C9. [get_instance_route53_names] returns a list without duplicates
    (in the order the set lists it, which the callers do not rely on)
    that holds exactly the domain names the record map gives for the
    value of one of the attributes [public_dns_name], [private_dns_name],
    [ip_address], [private_ip_address] of the instance; an attribute the
    instance lacks is passed over. *)
Theorem route53_names_exact (instance : Instance.t) (route53_records : records_map) :
  NoDup (get_instance_route53_names instance route53_records) ∧
  ∀ n, n ∈ get_instance_route53_names instance route53_records ↔
       ∃ v names,
         (Instance.public_dns_name instance = Some (PyStr v) ∨
          Instance.private_dns_name instance = Some (PyStr v) ∨
          Instance.ip_address instance = Some (PyStr v) ∨
          Instance.private_ip_address instance = Some (PyStr v)) ∧
         route53_records !! v = Some names ∧
         n ∈ names.
Proof.
  split; [apply NoDup_elements|].
  intros n. rewrite route53_names_members. split.
  - intros (attrib & v & names & Hin & Hget & Hrec & Hn).
    exists v, names. split; [|done].
    unfold instance_attributes in Hin.
    repeat (apply elem_of_cons in Hin as [-> | Hin]); [..|by apply elem_of_nil in Hin];
      unfold getattr in Hget; simpl in Hget.
    + destruct (Instance.public_dns_name instance) as [value|]; [|done].
      injection Hget as Hvalue. subst value. auto.
    + destruct (Instance.private_dns_name instance) as [value|]; [|done].
      injection Hget as Hvalue. subst value. auto.
    + destruct (Instance.ip_address instance) as [value|]; [|done].
      injection Hget as Hvalue. subst value. auto.
    + destruct (Instance.private_ip_address instance) as [value|]; [|done].
      injection Hget as Hvalue. subst value. auto.
  - intros (v & names & Hattr & Hrec & Hn).
    destruct Hattr as [H | [H | [H | H]]].
    + exists "public_dns_name", v, names. repeat split; [|by unfold getattr; simpl; rewrite H|done..].
      unfold instance_attributes. set_solver.
    + exists "private_dns_name", v, names. repeat split; [|by unfold getattr; simpl; rewrite H|done..].
      unfold instance_attributes. set_solver.
    + exists "ip_address", v, names. repeat split; [|by unfold getattr; simpl; rewrite H|done..].
      unfold instance_attributes. set_solver.
    + exists "private_ip_address", v, names. repeat split; [|by unfold getattr; simpl; rewrite H|done..].
      unfold instance_attributes. set_solver.
Qed.

(** On [web_a] and [sample_records]: the name the record map has under
    both the private address and the private DNS name is listed once. *)
Lemma route53_names_exact_witness :
  NoDup (get_instance_route53_names web_a sample_records) ∧
  length (get_instance_route53_names web_a sample_records) = 2%nat ∧
  "web.example.com" ∈ get_instance_route53_names web_a sample_records ∧
  "internal.example.com" ∈ get_instance_route53_names web_a sample_records ∧
  "db.example.com" ∉ get_instance_route53_names web_a sample_records.
Proof.
  destruct (route53_names_exact web_a sample_records) as [Hnd Hiff].
  split; [exact Hnd|]. split; [vm_compute; reflexivity|].
  split; [|split].
  - apply Hiff. exists "10.0.0.5", {[ "web.example.com" ]}.
    split; [by (do 3 right)|]. split; [vm_compute; reflexivity | set_solver].
  - apply Hiff.
    exists "ip-10-0-0-5.ec2.internal", {[ "internal.example.com"; "web.example.com" ]}.
    split; [by (right; left)|]. split; [vm_compute; reflexivity | set_solver].
  - intros (v & names & Hattr & Hrec & Hn)%Hiff.
    assert (H0 : sample_records !! "" = None) by (vm_compute; reflexivity).
    assert (H1 : sample_records !! "ip-10-0-0-5.ec2.internal"
                 = Some {[ "internal.example.com"; "web.example.com" ]})
      by (vm_compute; reflexivity).
    assert (H2 : sample_records !! "10.0.0.5" = Some {[ "web.example.com" ]})
      by (vm_compute; reflexivity).
    destruct Hattr as [H | [H | [H | H]]]; vm_compute in H; try discriminate H;
      injection H as Hv; subst v.
    + rewrite H0 in Hrec. discriminate Hrec.
    + rewrite H1 in Hrec. injection Hrec as Hnames. subst names.
      apply elem_of_union in Hn as [Hn | Hn]; apply elem_of_singleton in Hn;
        discriminate Hn.
    + rewrite H2 in Hrec. injection Hrec as Hnames. subst names.
      apply elem_of_singleton in Hn. discriminate Hn.
Defined.

Section Route53Failure.

Context (cfg : Config) (aws : Provider).

(** C10. With at least one hosted zone [get_route53_records] raises
    [NameError] for [r53_conn] before it returns, so an
    [update_inventory] with [USE_ROUTE53] set raises it too: no region
    is fetched, no group is made and no cache file is written. *)
Theorem route53_name_error (s : Store) :
  Route53.get_zones (connect_route53 aws) ≠ [] →
  get_route53_records aws s = (s, Raise (NameError "r53_conn")) ∧
  (USE_ROUTE53 cfg = true →
   ∃ s', update_inventory cfg aws s = (s', Raise (NameError "r53_conn")) ∧
         inventory s' = ∅ ∧ index s' = ∅ ∧ fs s' = fs s ∧ stdout s' = stdout s).
Proof.
  intros Hz.
  assert (Hr : ∀ s0, get_route53_records aws s0 = (s0, Raise (NameError "r53_conn"))).
  { intros s0. unfold get_route53_records.
    destruct (Route53.get_zones (connect_route53 aws)) as [|zone rest]; [done|].
    reflexivity. }
  split; [apply Hr|].
  intros Huse. unfold update_inventory. rewrite Huse.
  eexists. split.
  - erewrite bind_return by reflexivity.
    erewrite bind_return by reflexivity.
    erewrite bind_raise; [reflexivity|].
    erewrite bind_raise; [reflexivity|]. apply Hr.
  - by simpl.
Qed.

End Route53Failure.

Lemma route53_name_error_witness :
  Route53.get_zones (connect_route53 route53_provider) ≠ [] ∧
  get_route53_records route53_provider (empty_store ∅ 0)
  = (empty_store ∅ 0, Raise (NameError "r53_conn")) ∧
  (USE_ROUTE53 route53_config = true →
   ∃ s', update_inventory route53_config route53_provider (empty_store ∅ 0)
         = (s', Raise (NameError "r53_conn")) ∧
         inventory s' = ∅ ∧ index s' = ∅ ∧ fs s' = fs (empty_store ∅ 0) ∧
         stdout s' = stdout (empty_store ∅ 0)).
Proof.
  assert (H : Route53.get_zones (connect_route53 route53_provider) ≠ []) by discriminate.
  split; [exact H|].
  exact (route53_name_error route53_config route53_provider (empty_store ∅ 0) H).
Defined.

(** ** The cache and the single-host mode *)

Section Cache.

Context (cfg : Config) (aws : Provider).

Lemma cache_expired_run (s : Store) :
  cache_expired cfg s =
  (s, Return
        match fs s !! CACHE_FILE_PATH cfg with
        | Some (RegularFile mod_time _) =>
            if mod_time + CACHE_MAX_AGE cfg >? clock s then
              match fs s !! CACHE_INDEX_PATH cfg with
              | Some (RegularFile _ _) => false
              | _ => true
              end
            else true
        | _ => true
        end).
Proof.
  unfold cache_expired, isfile, getmtime, time, get_store, mbind, M_bind, mret, M_ret.
  cbv beta iota.
  destruct (fs s !! CACHE_FILE_PATH cfg) as [[mod_time content|]|] eqn:E;
    cbv beta iota; rewrite ?E; try reflexivity.
  destruct (mod_time + CACHE_MAX_AGE cfg >? clock s); cbv beta iota; [|reflexivity].
  destruct (fs s !! CACHE_INDEX_PATH cfg) as [[mt content'|]|]; reflexivity.
Qed.

(** C3 (amended). [cache_expired] returns false exactly when the cache
    file and the index file both exist and the age of the cache file,
    the current time minus its modification time, is strictly less than
    the configured maximum age; whenever it returns true the script
    refreshes the inventory. *)
Theorem cache_valid_iff (s : Store) :
  ∃ expired,
    cache_expired cfg s = (s, Return expired) ∧
    (expired = false ↔
     ∃ mod_time content index_time index_content,
       fs s !! CACHE_FILE_PATH cfg = Some (RegularFile mod_time content) ∧
       fs s !! CACHE_INDEX_PATH cfg = Some (RegularFile index_time index_content) ∧
       clock s - mod_time < CACHE_MAX_AGE cfg) ∧
    (expired = true →
     ∀ args, main cfg aws args s = (update_inventory cfg aws ≫= serve cfg aws args) s).
Proof.
  eexists. split; [apply cache_expired_run|]. split.
  - destruct (fs s !! CACHE_FILE_PATH cfg) as [[mod_time content|]|].
    + destruct (Z.gtb_spec (mod_time + CACHE_MAX_AGE cfg) (clock s)) as [Hlt | Hge].
      * destruct (fs s !! CACHE_INDEX_PATH cfg) as [[mt content'|]|].
        -- split; [|done]. intros _. exists mod_time, content, mt, content'.
           repeat split. lia.
        -- split; [done|]. by intros (? & ? & ? & ? & _ & ? & _).
        -- split; [done|]. by intros (? & ? & ? & ? & _ & ? & _).
      * split; [done|]. intros (m & ? & ? & ? & [= <- _] & _ & Hage). lia.
    + split; [done|]. by intros (? & ? & ? & ? & ? & _).
    + split; [done|]. by intros (? & ? & ? & ? & ? & _).
  - intros Hexp args. unfold main.
    rewrite (bind_return _ _ s s _ (cache_expired_run s)), Hexp. reflexivity.
Qed.


End Cache.

Lemma cache_valid_iff_witness :
  ∃ expired,
    cache_expired default_config (empty_store cached_files 1299)
    = (empty_store cached_files 1299, Return expired) ∧
    (expired = false ↔
     ∃ mod_time content index_time index_content,
       fs (empty_store cached_files 1299) !! CACHE_FILE_PATH default_config
       = Some (RegularFile mod_time content) ∧
       fs (empty_store cached_files 1299) !! CACHE_INDEX_PATH default_config
       = Some (RegularFile index_time index_content) ∧
       clock (empty_store cached_files 1299) - mod_time < CACHE_MAX_AGE default_config) ∧
    (expired = true →
     ∀ args, main default_config route53_provider args (empty_store cached_files 1299)
             = (update_inventory default_config route53_provider
                ≫= serve default_config route53_provider args)
                 (empty_store cached_files 1299)).
Proof.
  exact (cache_valid_iff default_config route53_provider (empty_store cached_files 1299)).
Defined.

(** C3 as stated fails at the boundary: with both files present and the
    cache file exactly [CACHE_MAX_AGE] seconds old, so of an age that is
    at most the maximum, [cache_expired] returns true. *)
Lemma cache_expired_at_max_age :
  (∃ content, fs (empty_store cached_files 1300) !! CACHE_FILE_PATH default_config
              = Some (RegularFile 1000 content)) ∧
  (∃ content, fs (empty_store cached_files 1300) !! CACHE_INDEX_PATH default_config
              = Some (RegularFile 1000 content)) ∧
  clock (empty_store cached_files 1300) - 1000 ≤ CACHE_MAX_AGE default_config ∧
  cache_expired default_config (empty_store cached_files 1300)
  = (empty_store cached_files 1300, Return true).
Proof.
  split; [eexists; vm_compute; reflexivity|].
  split; [eexists; vm_compute; reflexivity|].
  split; [vm_compute; discriminate|].
  rewrite cache_expired_run. vm_compute. reflexivity.
Defined.


(** * Further properties of the code *)

(** ** What one call does to the store *)

Lemma appends_ret (dest : string) : appends [] dest [] (mret tt).
Proof. intros [inv idx f c out]. simpl. unfold mret, M_ret. by rewrite app_nil_r. Qed.

Lemma appends_print (dest : string) (line : doc) : appends [] dest [line] (print line).
Proof. by intros s. Qed.

Lemma appends_inventory_append (key dest : string) :
  appends [key] dest [] (inventory_append key dest).
Proof.
  intros [inv idx f c out]. unfold inventory_append, mbind, M_bind, get_store, set_inventory.
  simpl. by rewrite app_nil_r.
Qed.

Lemma appends_bind (keys1 keys2 : list string) (dest : string) (out1 out2 : list doc)
    (m1 m2 : M unit) :
  appends keys1 dest out1 m1 → appends keys2 dest out2 m2 →
  appends (keys1 ++ keys2) dest (out1 ++ out2) (m1 ;; m2).
Proof.
  intros H1 H2 s. rewrite (bind_return _ _ _ _ _ (H1 s)), H2. simpl.
  unfold append_all. by rewrite foldl_app, app_assoc.
Qed.

Lemma appends_for_each {A} (f : A → string) (dest : string) (l : list A) :
  appends (f <$> l) dest [] (for_each l (λ x, inventory_append (f x) dest)).
Proof.
  induction l as [|x l IH]; simpl; [apply appends_ret|].
  apply (appends_bind [f x] (f <$> l) dest [] []);
    [apply appends_inventory_append | exact IH].
Qed.

Lemma appends_try_except (keys : list string) (dest : string) (out : list doc)
    (body : M unit) (handler : exn → option (M unit)) :
  appends keys dest out body → appends keys dest out (try_except body handler).
Proof. intros H s. unfold try_except. by rewrite H. Qed.

Lemma appends_try_except_raise {B} (keys : list string) (dest : string) (out : list doc)
    (e : exn) (f : B → M unit) (h : M unit) (handler : exn → option (M unit)) :
  handler e = Some h → appends keys dest out h →
  appends keys dest out (try_except (raise e ≫= f) handler).
Proof.
  intros Hh H s. unfold try_except, mbind, M_bind, raise. by rewrite Hh, H.
Qed.

Lemma appends_eq (keys keys' : list string) (dest : string) (out out' : list doc)
    (m : M unit) :
  appends keys dest out m → keys = keys' → out = out' → appends keys' dest out' m.
Proof. by intros H <- <-. Qed.

Lemma key_name_appends (instance : Instance.t) (dest : string) :
  appends (match Instance.key_name instance with
           | PyStr k => if truthy (PyStr k) then [to_safe ("key_" +:+ k)] else []
           | PyNone => []
           end) dest []
    (match Instance.key_name instance with
     | PyStr k =>
         if truthy (PyStr k) then inventory_append (to_safe ("key_" +:+ k)) dest
         else mret tt
     | PyNone => mret tt
     end).
Proof.
  destruct (Instance.key_name instance) as [|k]; [apply appends_ret|].
  destruct (truthy (PyStr k)); [apply appends_inventory_append | apply appends_ret].
Qed.

Lemma security_groups_appends (instance : Instance.t) (region : string)
    (records : option records_map) (dest : string) :
  appends (match Instance.groups instance with
           | Some gs => (λ group, to_safe ("security_group_" +:+ Group.name group)) <$> gs
           | None => []
           end) dest (call_warnings (AddInstance instance region records))
    (try_except
       (gs ← instance_groups instance;
        for_each gs (λ group,
          inventory_append (to_safe ("security_group_" +:+ Group.name group)) dest))
       (on_attribute_error old_boto_warning)).
Proof.
  unfold instance_groups, call_warnings.
  destruct (Instance.groups instance) as [gs|].
  - apply appends_try_except. intros s.
    erewrite bind_return by reflexivity. apply appends_for_each.
  - eapply appends_try_except_raise; [reflexivity|].
    apply (appends_bind [] [] dest [_] [_]); apply appends_print.
Qed.

Lemma route53_groups_appends (instance : Instance.t) (records : option records_map)
    (dest : string) :
  appends (match records_truthy records with
           | Some m => get_instance_route53_names instance m
           | None => []
           end) dest []
    (match records_truthy records with
     | Some m =>
         for_each (get_instance_route53_names instance m) (λ name,
           inventory_append name dest)
     | None => mret tt
     end).
Proof.
  destruct (records_truthy records) as [m|]; [|apply appends_ret].
  rewrite <- (list_fmap_id (get_instance_route53_names instance m)) at 1.
  apply (appends_for_each id).
Qed.

Lemma profile_appends (instance : Instance.t) (dest : string) :
  appends (match Instance.instance_profile instance with
           | Some profile =>
               [to_safe ("profile_" +:+ last_item (split "/" (Profile.arn profile)))]
           | None => []
           end) dest []
    (match Instance.instance_profile instance with
     | Some profile =>
         inventory_append
           (to_safe ("profile_" +:+ last_item (split "/" (Profile.arn profile)))) dest
     | None => mret tt
     end).
Proof.
  destruct (Instance.instance_profile instance) as [profile|];
    [apply appends_inventory_append | apply appends_ret].
Qed.

Lemma add_instance_groups_appends (instance : Instance.t) (region : string)
    (records : option records_map) (dest : string) :
  appends (instance_group_names instance region records) dest
          (call_warnings (AddInstance instance region records))
          (add_instance_groups instance region records dest).
Proof.
  unfold add_instance_groups.
  eapply appends_eq.
  - eapply appends_bind; [apply appends_inventory_append|].
    eapply appends_bind; [apply appends_inventory_append|].
    eapply appends_bind; [apply appends_inventory_append|].
    eapply appends_bind; [apply key_name_appends|].
    eapply appends_bind; [apply (security_groups_appends instance region records)|].
    eapply appends_bind;
      [apply (appends_for_each
                (λ kv : string * string, to_safe ((("tag_" +:+ kv.1) +:+ "=") +:+ kv.2)))|].
    eapply appends_bind; [apply route53_groups_appends | apply profile_appends].
  - reflexivity.
  - simpl. by rewrite !app_nil_r.
Qed.

Lemma rds_security_group_appends (instance : DBInstance.t) (region : string)
    (records : option records_map) (dest : string) :
  appends (match DBInstance.security_group instance with
           | Some (Some g) => [to_safe ("security_group_" +:+ Group.name g)]
           | _ => []
           end) dest (call_warnings (AddRdsInstance instance region records))
    (try_except
       (sg ← instance_security_group instance;
        match sg with
        | Some g => inventory_append (to_safe ("security_group_" +:+ Group.name g)) dest
        | None => mret tt
        end)
       (on_attribute_error old_boto_warning_rds)).
Proof.
  unfold instance_security_group, call_warnings.
  destruct (DBInstance.security_group instance) as [[g|]|].
  - apply appends_try_except. intros s.
    erewrite bind_return by reflexivity. apply appends_inventory_append.
  - apply appends_try_except. intros s.
    erewrite bind_return by reflexivity. apply appends_ret.
  - eapply appends_try_except_raise; [reflexivity|].
    apply (appends_bind [] [] dest [_] [_]); apply appends_print.
Qed.

Lemma add_rds_instance_groups_appends (instance : DBInstance.t) (region : string)
    (records : option records_map) (dest : string) :
  appends (rds_group_names instance region) dest
          (call_warnings (AddRdsInstance instance region records))
          (add_rds_instance_groups instance region dest).
Proof.
  unfold add_rds_instance_groups.
  eapply appends_eq.
  - eapply appends_bind; [apply appends_inventory_append|].
    eapply appends_bind; [apply appends_inventory_append|].
    eapply appends_bind; [apply appends_inventory_append|].
    eapply appends_bind; [apply (rds_security_group_appends instance region records)|].
    eapply appends_bind; apply appends_inventory_append.
  - reflexivity.
  - simpl. by rewrite !app_nil_r.
Qed.

Lemma append_all_lookup (keys : list string) (a g : string) (d : dict) :
  append_all keys a d !! g =
  match occurrences g keys with
  | O => d !! g
  | S n => Some (default [] (d !! g) ++ replicate (S n) a)
  end.
Proof.
  unfold append_all, occurrences. revert d.
  induction keys as [|k keys IH]; intros d; [reflexivity|].
  simpl foldl. rewrite IH, filter_cons. unfold append_item.
  destruct (decide (k = g)) as [-> | Hne].
  - rewrite lookup_insert_eq. simpl length.
    destruct (length (filter (λ k, k = g) keys)) as [|n]; simpl; [done|].
    by rewrite <- app_assoc.
  - by rewrite lookup_insert_ne.
Qed.

Lemma occurrences_not_elem (g : string) (keys : list string) :
  g ∉ keys → occurrences g keys = 0%nat.
Proof.
  unfold occurrences. induction keys as [|k keys IH]; [done|].
  intros [Hne Hnot]%not_elem_of_cons. rewrite filter_cons.
  rewrite decide_False by done. auto.
Qed.

Lemma call_tail_exact (a : string) (entry : list string) (key : string)
    (keys : list string) (out : list doc) (groups : M unit) (s : Store) :
  appends keys a out groups →
  (index_set a entry ;; inventory_set key [a] ;; groups ;;
   s ← get_store; mret (Some (inventory s, index s))) s
  = ({| inventory := append_all keys a (<[key := [a]]> (inventory s));
        index := <[a := entry]> (index s);
        fs := fs s; clock := clock s; stdout := stdout s ++ out |},
     Return (Some (append_all keys a (<[key := [a]]> (inventory s)),
                   <[a := entry]> (index s)))).
Proof.
  intros Hg.
  erewrite bind_return by reflexivity.
  erewrite bind_return by reflexivity.
  erewrite bind_return by apply Hg.
  reflexivity.
Qed.

Section CallExact.

Context (cfg : Config).

Lemma run_call_exact (c : call) (a : string) (s : Store) :
  call_dest cfg c = Return (Some a) →
  run_call cfg c s
  = ({| inventory := append_all (call_group_names c) a (<[call_id c := [a]]> (inventory s));
        index := <[a := call_entry c]> (index s);
        fs := fs s; clock := clock s; stdout := stdout s ++ call_warnings c |},
     Return (Some (append_all (call_group_names c) a (<[call_id c := [a]]> (inventory s)),
                   <[a := call_entry c]> (index s)))).
Proof.
  destruct c as [instance region records | instance region records];
    unfold call_dest, run_call.
  - unfold add_instance.
    destruct (negb (Instance.state instance =? "running")%string); [done|].
    rewrite bind_lift.
    destruct (select_dest cfg instance) as [[|dest]|e]; try done.
    destruct (negb (truthy (PyStr dest))); [done|].
    intros [= <-]. apply call_tail_exact, add_instance_groups_appends.
  - unfold add_rds_instance.
    destruct (negb (DBInstance.status instance =? "available")%string); [done|].
    destruct ((DBInstance.endpoint instance).1) as [|dest]; try done.
    destruct (negb (truthy (PyStr dest))); [done|].
    intros [= <-]. apply call_tail_exact, add_rds_instance_groups_appends.
Qed.

(** X1. A call for a live resource with the truthy address [a] returns
    the pair of its two dictionaries and changes the store in exactly
    this way: [a] is set to [[region, id]] in the index; in the
    inventory the group of the id is set to [[a]] and then [a] is
    appended to each group name of the call in the order of the
    statements; the files and the clock are untouched; standard output
    gets only the warning about an old boto. *)
Theorem call_exact (c : call) (a : string) (s : Store) :
  call_dest cfg c = Return (Some a) →
  ∃ s', run_call cfg c s = (s', Return (Some (inventory s', index s'))) ∧
        index s' = <[a := call_entry c]> (index s) ∧
        inventory s'
        = append_all (call_group_names c) a (<[call_id c := [a]]> (inventory s)) ∧
        fs s' = fs s ∧ clock s' = clock s ∧
        stdout s' = stdout s ++ call_warnings c.
Proof.
  intros H. rewrite (run_call_exact c a s H).
  exists {| inventory := append_all (call_group_names c) a
                           (<[call_id c := [a]]> (inventory s));
            index := <[a := call_entry c]> (index s);
            fs := fs s; clock := clock s; stdout := stdout s ++ call_warnings c |}.
  by repeat split.
Qed.

Lemma call_inventory (c : call) (a : string) (s : Store) :
  call_dest cfg c = Return (Some a) →
  inventory (run_call cfg c s).1
  = append_all (call_group_names c) a (<[call_id c := [a]]> (inventory s)).
Proof. intros H. by rewrite (run_call_exact c a s H). Qed.

(** X2. After a call that adds the address [a], the group of the
    resource id holds [a] once plus once for every other group of the
    call with the same name, so exactly [[a]] when the id is the name of
    no other group; any other group the call names holds what it held
    followed by [a], once per naming; every other group is as it was. *)
Theorem call_group_contents (c : call) (a : string) (s : Store) :
  call_dest cfg c = Return (Some a) →
  inventory (run_call cfg c s).1 !! call_id c
  = Some (replicate (S (occurrences (call_id c) (call_group_names c))) a) ∧
  (call_id c ∉ call_group_names c →
   inventory (run_call cfg c s).1 !! call_id c = Some [a]) ∧
  ∀ g, g ≠ call_id c →
    inventory (run_call cfg c s).1 !! g =
    match occurrences g (call_group_names c) with
    | O => inventory s !! g
    | S n => Some (default [] (inventory s !! g) ++ replicate (S n) a)
    end.
Proof.
  intros H. rewrite (call_inventory c a s H).
  assert (Hid : append_all (call_group_names c) a (<[call_id c := [a]]> (inventory s))
                !! call_id c
                = Some (replicate (S (occurrences (call_id c) (call_group_names c))) a)).
  { rewrite append_all_lookup, lookup_insert_eq.
    destruct (occurrences (call_id c) (call_group_names c)) as [|n]; reflexivity. }
  split; [exact Hid|]. split.
  - intros Hnot. by rewrite Hid, occurrences_not_elem.
  - intros g Hg. rewrite append_all_lookup. by rewrite lookup_insert_ne.
Qed.

End CallExact.

(** ** A refresh as a sequence of calls *)

Lemma for_each_ext {A} (l : list A) (body body' : A → M unit) (s : Store) :
  (∀ x s0, body x s0 = body' x s0) → for_each l body s = for_each l body' s.
Proof.
  intros H. revert s. induction l as [|x l IH]; intros s; [done|].
  simpl. unfold mbind, M_bind. rewrite H.
  destruct (body' x s) as [s1 [[]|e]]; [apply IH | done].
Qed.

Lemma for_each_app {A} (l1 l2 : list A) (body : A → M unit) (s : Store) :
  for_each (l1 ++ l2) body s = (for_each l1 body ;; for_each l2 body) s.
Proof.
  revert s. induction l1 as [|x l1 IH]; intros s; [done|].
  simpl. unfold mbind, M_bind in *.
  destruct (body x s) as [s1 [[]|e]]; [apply IH | done].
Qed.

Lemma for_each_fmap {A B} (f : A → B) (l : list A) (body : B → M unit) (s : Store) :
  for_each (f <$> l) body s = for_each l (λ x, body (f x)) s.
Proof.
  revert s. induction l as [|x l IH]; intros s; [done|].
  simpl. unfold mbind, M_bind.
  destruct (body (f x) s) as [s1 [[]|e]]; [apply IH | done].
Qed.

Lemma for_each_concat {A} (ls : list (list A)) (body : A → M unit) (s : Store) :
  for_each (concat ls) body s = for_each ls (λ l, for_each l body) s.
Proof.
  revert s. induction ls as [|l ls IH]; intros s; [done|].
  simpl. rewrite for_each_app. unfold mbind, M_bind.
  destruct (for_each l body s) as [s1 [[]|e]]; [apply IH | done].
Qed.

Lemma try_except_return {A} (body : M A) (handler : exn → option (M A)) (s s' : Store)
    (a : A) :
  body s = (s', Return a) → try_except body handler s = (s', Return a).
Proof. intros H. unfold try_except. by rewrite H. Qed.

Section Refresh.

Context (cfg : Config) (aws : Provider).

Lemma run_calls_app (cs1 cs2 : list call) (s : Store) :
  run_calls cfg (cs1 ++ cs2) s = (run_calls cfg cs1 ;; run_calls cfg cs2) s.
Proof. apply for_each_app. Qed.

Lemma ec2_calls_run (region : string) (records : option records_map) (s : Store) :
  is_Some (ec2_connection cfg aws region) →
  get_instances_by_region cfg aws region records s = run_calls cfg (ec2_calls cfg aws region) s.
Proof.
  intros [reservations H]. unfold get_instances_by_region, ec2_calls.
  fold (ec2_connection cfg aws region). rewrite H.
  unfold run_calls. rewrite for_each_concat, for_each_fmap.
  apply for_each_ext. intros reservation s0. by rewrite for_each_fmap.
Qed.

Lemma rds_calls_resolve (records : option records_map) (region : string) :
  Forall (resolves cfg) (rds_calls aws records region).
Proof.
  unfold rds_calls. destruct (rds_connect_to_region aws region) as [[msg|instances]|];
    try by constructor.
  apply Forall_fmap, Forall_forall. intros instance _. unfold resolves. simpl.
  destruct (negb _); [eauto|].
  destruct ((DBInstance.endpoint instance).1) as [|dest]; [eauto|].
  destruct (negb _); eauto.
Qed.

Lemma rds_calls_run (region : string) (records : option records_map) (s : Store) :
  (∀ msg, rds_connect_to_region aws region ≠ Some (inl msg)) →
  get_rds_instances_by_region aws region records s
  = run_calls cfg (rds_calls aws records region) s.
Proof.
  intros Hok.
  destruct (run_calls_index cfg _ s (rds_calls_resolve records region)) as (s' & E & _).
  rewrite E. unfold get_rds_instances_by_region. apply try_except_return.
  rewrite <- E. unfold rds_calls, run_calls.
  destruct (rds_connect_to_region aws region) as [[msg|instances]|]; [by destruct (Hok msg) | | done].
  by rewrite for_each_fmap.
Qed.

Lemma region_loop_run (regions : list string) (records : option records_map) (s : Store) :
  Forall (region_ok cfg aws) regions →
  for_each regions (λ region,
    get_instances_by_region cfg aws region records ;;
    get_rds_instances_by_region aws region records) s
  = run_calls cfg
      (concat ((λ region, ec2_calls cfg aws region ++ rds_calls aws records region)
                 <$> regions)) s.
Proof.
  intros Hok. revert s. induction Hok as [|region regions [Hec2 Hrds] Hok IH]; intros s; [done|].
  rewrite fmap_cons. simpl concat. simpl for_each.
  rewrite run_calls_app. unfold mbind, M_bind. rewrite run_calls_app.
  unfold mbind, M_bind.
  rewrite (ec2_calls_run region records s Hec2).
  destruct (run_calls cfg (ec2_calls cfg aws region) s) as [s1 [[]|e]]; [|done].
  rewrite (rds_calls_run region records s1 Hrds).
  destruct (run_calls cfg (rds_calls aws records region) s1) as [s2 [[]|e]]; [|done].
  apply IH.
Qed.

End Refresh.

(** ** What keeps the files *)

Lemma keeps_ret {A} (a : A) : keeps_files (mret a).
Proof. by intros s. Qed.

Lemma keeps_raise {A} (e : exn) : keeps_files (raise (A := A) e).
Proof. by intros s. Qed.

Lemma keeps_bind {A B} (m : M A) (f : A → M B) :
  keeps_files m → (∀ a, keeps_files (f a)) → keeps_files (m ≫= f).
Proof.
  intros Hm Hf s. unfold mbind, M_bind.
  destruct (Hm s) as [F C]. destruct (m s) as [s1 [a|e]]; simpl in *.
  - destruct (Hf a s1) as [F1 C1]. split; congruence.
  - done.
Qed.

Lemma keeps_for_each {A} (l : list A) (body : A → M unit) :
  (∀ x, keeps_files (body x)) → keeps_files (for_each l body).
Proof.
  intros H. induction l as [|x l IH]; simpl; [apply keeps_ret|].
  apply keeps_bind; [apply H | by intros _].
Qed.

Lemma keeps_try_except {A} (body : M A) (handler : exn → option (M A)) :
  keeps_files body → (∀ e h, handler e = Some h → keeps_files h) →
  keeps_files (try_except body handler).
Proof.
  intros Hb Hh s. unfold try_except.
  destruct (Hb s) as [F C]. destruct (body s) as [s1 [a|e]]; simpl in *; [done|].
  destruct (handler e) as [h|] eqn:E; [|done].
  destruct (Hh e h E s1) as [F1 C1]. split; congruence.
Qed.

Lemma keeps_print (line : doc) : keeps_files (print line).
Proof. by intros s. Qed.

Lemma keeps_set_inventory (d : dict) : keeps_files (set_inventory d).
Proof. by intros s. Qed.

Lemma keeps_set_index (d : dict) : keeps_files (set_index d).
Proof. by intros s. Qed.

Lemma keeps_run_call (cfg : Config) (c : call) : keeps_files (run_call cfg c).
Proof.
  intros s. pose proof (run_call_spec cfg c s) as H.
  destruct (call_dest cfg c) as [[a|]|e].
  - by destruct H as (s' & r & -> & (_ & F & C & _)).
  - by rewrite H.
  - by rewrite H.
Qed.

Lemma keeps_run_calls (cfg : Config) (cs : list call) : keeps_files (run_calls cfg cs).
Proof.
  apply keeps_for_each. intros c.
  apply keeps_bind; [apply keeps_run_call | intros _; apply keeps_ret].
Qed.

Lemma keeps_route53_zone_loop (scope : gmap string Route53.t) (zones : list Zone.t)
    (m : records_map) :
  keeps_files (route53_zone_loop scope zones m).
Proof.
  revert m. induction zones as [|zone zones IH]; intros m; simpl; [apply keeps_ret|].
  apply keeps_bind; [|intros conn; apply IH].
  unfold lookup_name. destruct (scope !! "r53_conn"); [apply keeps_ret | apply keeps_raise].
Qed.

Section Fetch.

Context (cfg : Config) (aws : Provider).

Lemma keeps_get_instances_by_region (region : string) (records : option records_map) :
  keeps_files (get_instances_by_region cfg aws region records).
Proof.
  unfold get_instances_by_region.
  destruct (if EUCALYPTUS cfg then _ else _) as [reservations|].
  - apply keeps_for_each. intros reservation. apply keeps_for_each. intros instance.
    apply keeps_bind; [|intros _; apply keeps_ret].
    apply (keeps_run_call cfg (AddInstance instance region None)).
  - apply keeps_bind; [apply keeps_print | intros _; apply keeps_raise].
Qed.

Lemma keeps_get_rds_instances_by_region (region : string) (records : option records_map) :
  keeps_files (get_rds_instances_by_region aws region records).
Proof.
  unfold get_rds_instances_by_region. apply keeps_try_except.
  - destruct (rds_connect_to_region aws region) as [[msg|instances]|];
      [apply keeps_raise | | apply keeps_ret].
    apply keeps_for_each. intros instance.
    apply keeps_bind; [|intros _; apply keeps_ret].
    apply (keeps_run_call cfg (AddRdsInstance instance region records)).
  - intros [] h; try done. intros [= <-].
    apply keeps_bind; [apply keeps_print | intros _].
    apply keeps_bind; [apply keeps_print | intros _; apply keeps_raise].
Qed.

Lemma keeps_fetch : keeps_files (fetch cfg aws).
Proof.
  unfold fetch.
  apply keeps_bind; [apply keeps_set_inventory | intros _].
  apply keeps_bind; [apply keeps_set_index | intros _].
  apply keeps_bind.
  - destruct (USE_ROUTE53 cfg); [|apply keeps_ret].
    apply keeps_bind; [apply keeps_route53_zone_loop | intros r; apply keeps_ret].
  - intros records. apply keeps_for_each. intros region.
    apply keeps_bind; [apply keeps_get_instances_by_region | intros _].
    apply keeps_get_rds_instances_by_region.
Qed.

Lemma update_inventory_split (s : Store) :
  update_inventory cfg aws s = (fetch cfg aws ;; write_cache cfg) s.
Proof.
  unfold update_inventory, fetch, write_cache, mbind, M_bind, set_inventory, set_index.
  destruct (USE_ROUTE53 cfg).
  - destruct (get_route53_records aws _) as [s1 [r|e]]; [|done].
    unfold mret, M_ret.
    by destruct (for_each (REGIONS cfg) _ s1) as [s2 [[]|e]].
  - unfold mret, M_ret.
    by destruct (for_each (REGIONS cfg) _ _) as [s2 [[]|e]].
Qed.

Lemma cache_paths_differ : CACHE_FILE_PATH cfg ≠ CACHE_INDEX_PATH cfg.
Proof.
  unfold CACHE_FILE_PATH, CACHE_INDEX_PATH, path_join.
  destruct (CACHE_BASE_PATH cfg =? "")%string; [done|].
  destruct (endswith_char (CACHE_BASE_PATH cfg) "/").
  - by intros H%(inj (String.append _)).
  - by intros H%(inj (String.append _)).
Qed.

Lemma write_cache_run (s : Store) :
  write_cache cfg s =
  match fs s !! CACHE_FILE_PATH cfg with
  | Some Directory => (s, Raise (IOError (CACHE_FILE_PATH cfg)))
  | _ =>
      match fs s !! CACHE_INDEX_PATH cfg with
      | Some Directory =>
          (with_fs (cache_written cfg s) s, Raise (IOError (CACHE_INDEX_PATH cfg)))
      | _ => (with_fs (both_written cfg s) s, Return (inventory s, index s))
      end
  end.
Proof.
  assert (Hne := cache_paths_differ).
  unfold write_cache, write_file, mbind, M_bind, get_store, set_fs, mret, M_ret.
  assert (Hidx : cache_written cfg s !! CACHE_INDEX_PATH cfg = fs s !! CACHE_INDEX_PATH cfg)
    by (unfold cache_written; by rewrite lookup_insert_ne).
  destruct (fs s !! CACHE_FILE_PATH cfg) as [[mt content|]|]; try done; simpl;
    fold (cache_written cfg s); rewrite Hidx;
    by destruct (fs s !! CACHE_INDEX_PATH cfg) as [[mt' content'|]|].
Qed.

End Fetch.

(** ** The refresh *)

Section UpdateInventory.

Context (cfg : Config) (aws : Provider).

Lemma fetch_run (s : Store) :
  (USE_ROUTE53 cfg = true → Route53.get_zones (connect_route53 aws) = []) →
  Forall (region_ok cfg aws) (REGIONS cfg) →
  fetch cfg aws s
  = run_calls cfg (refresh_calls cfg aws (if USE_ROUTE53 cfg then Some ∅ else None)) (fresh s).
Proof.
  intros Hz Hok. unfold fetch, refresh_calls.
  erewrite bind_return by reflexivity.
  erewrite bind_return by reflexivity.
  destruct (USE_ROUTE53 cfg).
  - erewrite bind_return; [by apply region_loop_run|].
    unfold get_route53_records. by rewrite Hz.
  - erewrite bind_return by reflexivity. by apply region_loop_run.
Qed.

(** X3. When Route53 is off (or lists no zone) and every configured
    region answers, a refresh is: two fresh dictionaries, then the calls
    of [add_instance] for the instances of each reservation and of
    [add_rds_instance] for the database instances, region by region in
    the configured order, then the writing of the two cache files. *)
Theorem refresh_is_calls (s : Store) :
  (USE_ROUTE53 cfg = true → Route53.get_zones (connect_route53 aws) = []) →
  Forall (region_ok cfg aws) (REGIONS cfg) →
  update_inventory cfg aws s
  = (run_calls cfg (refresh_calls cfg aws (if USE_ROUTE53 cfg then Some ∅ else None)) ;;
     write_cache cfg) (fresh s).
Proof.
  intros Hz Hok. rewrite update_inventory_split.
  unfold mbind, M_bind. by rewrite (fetch_run s Hz Hok).
Qed.

(** X4. If moreover every resource listed has its address attribute,
    all the calls of the refresh complete and leave only the two cache
    files to write; the index they build maps every address to the entry
    of the last call that resolved to it and has no other key, and every
    address of the inventory is a key of the index; and whenever
    [update_inventory] then returns, it returns these two dictionaries
    and the two files hold them, stamped with the time of the refresh. *)
Theorem refresh_result (s : Store) :
  (USE_ROUTE53 cfg = true → Route53.get_zones (connect_route53 aws) = []) →
  Forall (region_ok cfg aws) (REGIONS cfg) →
  Forall (resolves cfg)
    (refresh_calls cfg aws (if USE_ROUTE53 cfg then Some ∅ else None)) →
  ∃ s1,
    run_calls cfg (refresh_calls cfg aws (if USE_ROUTE53 cfg then Some ∅ else None))
      (fresh s) = (s1, Return tt) ∧
    update_inventory cfg aws s = write_cache cfg s1 ∧
    (∀ a, index s1 !! a
          = call_entry <$>
            last_writer cfg a
              (refresh_calls cfg aws (if USE_ROUTE53 cfg then Some ∅ else None))) ∧
    indexed s1 ∧
    ∀ s' r, update_inventory cfg aws s = (s', Return r) →
      r = (inventory s1, index s1) ∧
      inventory s' = inventory s1 ∧ index s' = index s1 ∧ clock s' = clock s ∧
      fs s' = <[CACHE_INDEX_PATH cfg := RegularFile (clock s) (JsonObj (index s1))]>
                (<[CACHE_FILE_PATH cfg := RegularFile (clock s) (JsonObj (inventory s1))]>
                   (fs s)).
Proof.
  intros Hz Hok Hres.
  rewrite update_inventory_split. unfold mbind, M_bind. rewrite (fetch_run s Hz Hok).
  set (cs := refresh_calls cfg aws (if USE_ROUTE53 cfg then Some ∅ else None)) in *.
  destruct (run_calls_index cfg cs (fresh s) Hres) as (s1 & E & F & Hidx).
  destruct (keeps_run_calls cfg cs (fresh s)) as [_ C].
  pose proof (run_calls_indexed cfg cs (fresh s)) as Hind.
  rewrite E in C, Hind |- *. simpl in C, F, Hind.
  exists s1. split; [done|]. split; [done|].
  split; [intros a; rewrite Hidx; by destruct (last_writer cfg a cs)|].
  split; [apply Hind; intros g l x Hl; simpl in Hl; by rewrite lookup_empty in Hl|].
  intros s' r. rewrite write_cache_run.
  destruct (fs s1 !! CACHE_FILE_PATH cfg) as [[mt content|]|]; try done;
    destruct (fs s1 !! CACHE_INDEX_PATH cfg) as [[mt' content'|]|]; try done;
    intros [= <- <-]; simpl; unfold both_written, cache_written;
    by rewrite C, F.
Qed.

Lemma update_inventory_returns (s s' : Store) (r : dict * dict) :
  update_inventory cfg aws s = (s', Return r) →
  ∃ s1, fs s1 = fs s ∧ clock s1 = clock s ∧
        s' = with_fs (both_written cfg s1) s1 ∧ r = (inventory s1, index s1).
Proof.
  rewrite update_inventory_split. unfold mbind, M_bind.
  destruct (keeps_fetch cfg aws s) as [F C].
  destruct (fetch cfg aws s) as [s1 [[]|e]]; [|done]. simpl in F, C.
  rewrite write_cache_run.
  destruct (fs s1 !! CACHE_FILE_PATH cfg) as [[mt content|]|]; try done;
    destruct (fs s1 !! CACHE_INDEX_PATH cfg) as [[mt' content'|]|]; try done;
    intros [= <- <-]; by exists s1.
Qed.

Lemma refresh_returns (s : Store) :
  (USE_ROUTE53 cfg = true → Route53.get_zones (connect_route53 aws) = []) →
  Forall (region_ok cfg aws) (REGIONS cfg) →
  Forall (resolves cfg)
    (refresh_calls cfg aws (if USE_ROUTE53 cfg then Some ∅ else None)) →
  fs s !! CACHE_FILE_PATH cfg = None →
  fs s !! CACHE_INDEX_PATH cfg = None →
  ∃ s' r, update_inventory cfg aws s = (s', Return r).
Proof.
  intros Hz Hok Hres Hc Hi.
  rewrite update_inventory_split. unfold mbind, M_bind. rewrite (fetch_run s Hz Hok).
  destruct (run_calls_index cfg _ (fresh s) Hres) as (s1 & E & F & _).
  rewrite E, write_cache_run, F. simpl. rewrite Hc, Hi. eauto.
Qed.

Lemma written_files (s1 : Store) :
  both_written cfg s1 !! CACHE_FILE_PATH cfg
  = Some (RegularFile (clock s1) (JsonObj (inventory s1))) ∧
  both_written cfg s1 !! CACHE_INDEX_PATH cfg
  = Some (RegularFile (clock s1) (JsonObj (index s1))).
Proof.
  assert (Hne := cache_paths_differ cfg). unfold both_written, cache_written.
  by rewrite lookup_insert_eq, lookup_insert_ne, lookup_insert_eq.
Qed.

(** X5. Whenever a refresh returns, what it returns is what the cache
    holds: reading the cache file gives the inventory returned, reading
    the index file gives the index returned, and with a positive
    maximum age the cache is not expired at the time of the refresh. *)
Theorem refresh_round_trip (s s' : Store) (r : dict * dict) :
  update_inventory cfg aws s = (s', Return r) →
  read_json (CACHE_FILE_PATH cfg) s' = (s', Return r.1) ∧
  read_json (CACHE_INDEX_PATH cfg) s' = (s', Return r.2) ∧
  (0 < CACHE_MAX_AGE cfg → cache_expired cfg s' = (s', Return false)).
Proof.
  intros (s1 & _ & _ & -> & ->)%update_inventory_returns.
  destruct (written_files s1) as [Hc Hi].
  unfold read_json, mbind, M_bind, get_store. simpl. rewrite Hc, Hi.
  repeat split. intros Hage. rewrite cache_expired_run. simpl. rewrite Hc, Hi.
  destruct (Z.gtb_spec (clock s1 + CACHE_MAX_AGE cfg) (clock s1)); [done | lia].
Qed.

(** X6. When [update_inventory] raises, either the exception was raised
    while fetching (by Route53, by a region that does not connect, by
    RDS, or by a missing address attribute), and then no file has been
    touched; or every region had been fetched without touching a file
    and the exception was raised while writing the cache. *)
Theorem failed_refresh_files (s s' : Store) (e : exn) :
  update_inventory cfg aws s = (s', Raise e) →
  (fetch cfg aws s = (s', Raise e) ∧ fs s' = fs s ∧ clock s' = clock s) ∨
  (∃ s1, fetch cfg aws s = (s1, Return tt) ∧ fs s1 = fs s ∧ clock s1 = clock s ∧
         write_cache cfg s1 = (s', Raise e)).
Proof.
  rewrite update_inventory_split. unfold mbind, M_bind.
  destruct (keeps_fetch cfg aws s) as [F C].
  destruct (fetch cfg aws s) as [s1 [[]|e1]]; simpl in F, C.
  - intros Hw. right. by exists s1.
  - intros [= <- <-]. by left.
Qed.

End UpdateInventory.

(** ** The command line over a valid cache *)

Section Main.

Context (cfg : Config) (aws : Provider).

Lemma read_json_run (path : string) (s : Store) (mt : Z) (d : dict) :
  fs s !! path = Some (RegularFile mt (JsonObj d)) → read_json path s = (s, Return d).
Proof. intros H. unfold read_json, mbind, M_bind, get_store. by rewrite H. Qed.

Lemma cache_valid_run (s : Store) (mt mt' : Z) (content content' : doc) :
  fs s !! CACHE_FILE_PATH cfg = Some (RegularFile mt content) →
  fs s !! CACHE_INDEX_PATH cfg = Some (RegularFile mt' content') →
  clock s - mt < CACHE_MAX_AGE cfg →
  cache_expired cfg s = (s, Return false).
Proof.
  intros Hc Hi Hage. rewrite cache_expired_run, Hc, Hi.
  destruct (Z.gtb_spec (mt + CACHE_MAX_AGE cfg) (clock s)); [done | lia].
Qed.

Lemma main_cached (args : Args) (s : Store) (mt mt' : Z) (inv idx : dict) :
  fs s !! CACHE_FILE_PATH cfg = Some (RegularFile mt (JsonObj inv)) →
  fs s !! CACHE_INDEX_PATH cfg = Some (RegularFile mt' (JsonObj idx)) →
  clock s - mt < CACHE_MAX_AGE cfg →
  refresh_cache args = false →
  main cfg aws args s = serve cfg aws args (inv, idx) s.
Proof.
  intros Hc Hi Hage Hr. unfold main.
  rewrite (bind_return _ _ s s false) by (by eapply cache_valid_run).
  rewrite Hr. simpl orb. cbv iota.
  erewrite bind_return; [reflexivity|].
  erewrite bind_return by (by eapply read_json_run).
  erewrite bind_return by (by eapply read_json_run).
  reflexivity.
Qed.



(** X9. A forced refresh that succeeds prints, in list mode, the
    inventory it has just cached; and a second run without the refresh
    flag, at the same time and with a positive maximum age, prints the
    same inventory again, from the cache and without a new refresh. *)
Theorem refresh_then_list (args args' : Args) (s s' : Store) (r : dict * dict) :
  update_inventory cfg aws s = (s', Return r) →
  refresh_cache args = true → truthy (host args) = false → list_mode args = true →
  refresh_cache args' = false → truthy (host args') = false → list_mode args' = true →
  0 < CACHE_MAX_AGE cfg →
  ∃ s1, main cfg aws args s = (s1, Return tt) ∧
        stdout s1 = stdout s' ++ [JsonObj r.1] ∧
        ∃ s2, main cfg aws args' s1 = (s2, Return tt) ∧
              stdout s2 = stdout s1 ++ [JsonObj r.1] ∧ fs s2 = fs s'.
Proof.
  intros Hup Hr Hh Hl Hr' Hh' Hl' Hage.
  assert (Hserve : ∀ (a : Args) (st : Store), truthy (host a) = false → list_mode a = true →
            serve cfg aws a r st
            = ({| inventory := inventory st; index := index st; fs := fs st;
                  clock := clock st; stdout := stdout st ++ [JsonObj r.1] |}, Return tt)).
  { intros a st Ha Hla. unfold serve. rewrite Hla.
    destruct (host a) as [|x]; [done|]. by rewrite Ha. }
  eexists. split.
  { unfold main. pose proof (cache_expired_run cfg s) as Hce.
    rewrite (bind_return _ _ _ _ _ Hce), Hr, orb_true_r.
    rewrite (bind_return _ _ _ _ _ Hup). by apply Hserve. }
  split; [done|].
  destruct (update_inventory_returns cfg aws s s' r Hup) as (s0 & _ & _ & -> & ->).
  destruct (written_files cfg s0) as [Hc Hi].
  rewrite (main_cached args' _ (clock s0) (clock s0) (inventory s0) (index s0));
    [|exact Hc | exact Hi | simpl; lia | done].
  rewrite Hserve by done. eexists. split; [reflexivity|]. by split.
Qed.

End Main.

(** ** Strings: sanitizing, splitting, joining *)

Lemma append_nil_r (s : string) : s +:+ "" = s.
Proof.
  induction s as [|c s IH]; [done|].
  change (String c s +:+ "") with (String c (s +:+ "")). by rewrite IH.
Qed.

Lemma sanitize_char_fixed (c : ascii) :
  sanitize_char c = c ↔ occurs c (letters_digits_hyphen +:+ "_") = true.
Proof.
  destruct c as [[] [] [] [] [] [] [] []]; vm_compute; split; congruence.
Qed.

(** X10. [to_safe] keeps the length of the word, every character of its
    result is an ASCII letter, a digit, a hyphen or an underscore, and
    it leaves a word unchanged exactly when the word is made of such
    characters only. *)
Theorem to_safe_charset (w : string) :
  String.length (to_safe w) = String.length w ∧
  (∀ c, occurs c (to_safe w) = true → occurs c (letters_digits_hyphen +:+ "_") = true) ∧
  (to_safe w = w ↔
   ∀ c, occurs c w = true → occurs c (letters_digits_hyphen +:+ "_") = true).
Proof.
  induction w as [|d w (IHlen & IHset & IHfix)]; [by repeat split|].
  rewrite to_safe_cons. split; [simpl; by rewrite IHlen|]. split.
  - intros c. rewrite occurs_cons. intros [Hc | Hc]%orb_true_iff.
    + apply Ascii.eqb_eq in Hc as ->.
      apply sanitize_char_fixed, sanitize_char_idem.
    + by apply IHset.
  - split.
    + intros [= Hd Hw] c. rewrite occurs_cons. intros [Hc | Hc]%orb_true_iff.
      * apply Ascii.eqb_eq in Hc as ->. by apply sanitize_char_fixed.
      * by apply IHfix.
    + intros H. f_equal.
      * apply sanitize_char_fixed, H. by rewrite occurs_cons, Ascii.eqb_refl.
      * apply IHfix. intros c Hc. apply H. by rewrite occurs_cons, Hc, orb_true_r.
Qed.

Lemma split_nonempty (sep : ascii) (s : string) : split sep s ≠ [].
Proof.
  destruct s as [|c s]; simpl; [done|].
  destruct (Ascii.eqb c sep); [done|]. by destruct (split sep s).
Qed.

(** X11. Splitting at a character loses nothing: joining the pieces of
    [split] with the separator gives the string back, and the pieces
    do not contain the separator. *)
Theorem join_split (sep : ascii) (s : string) :
  join (String sep "") (split sep s) = s ∧
  Forall (λ piece, occurs sep piece = false) (split sep s).
Proof.
  induction s as [|c s [IHjoin IHfree]]; [by repeat constructor|].
  simpl split. destruct (Ascii.eqb_spec c sep) as [-> | Hne].
  - split; [|by constructor].
    pose proof (split_nonempty sep s) as Hs.
    destruct (split sep s) as [|h t]; [done|]. simpl in *. by rewrite IHjoin.
  - pose proof (split_nonempty sep s) as Hs.
    destruct (split sep s) as [|h t]; [done|].
    apply Forall_cons in IHfree as [Hh Ht]. split.
    + destruct t as [|h' t]; simpl in *; by rewrite <- IHjoin.
    + constructor; [|done]. rewrite occurs_cons, Hh, orb_false_r.
      apply Ascii.eqb_neq. congruence.
Qed.

Lemma last_cons_nonempty (x : string) (l : list string) :
  l ≠ [] → last (x :: l) = last l.
Proof. by destruct l. Qed.

Lemma split_free (sep : ascii) (s : string) :
  occurs sep s = false → split sep s = [s].
Proof.
  induction s as [|c s IH]; [done|].
  rewrite occurs_cons. intros [Hc Hs]%orb_false_iff. simpl.
  rewrite Ascii.eqb_sym, Hc. by rewrite IH.
Qed.

Lemma split_app_sep (sep : ascii) (p s : string) :
  ∃ h t, split sep (p +:+ String sep s) = h :: t ∧ t ≠ [] ∧
         last t = last (split sep s).
Proof.
  induction p as [|c p (h & t & E & Hne & Hlast)].
  - exists "", (split sep s).
    change ("" +:+ String sep s) with (String sep s). simpl. rewrite Ascii.eqb_refl.
    split; [done|]. split; [apply split_nonempty | done].
  - change (String c p +:+ String sep s) with (String c (p +:+ String sep s)).
    simpl split. rewrite E. destruct (Ascii.eqb c sep).
    + exists "", (h :: t). split; [done|]. split; [done|].
      rewrite <- Hlast. by apply last_cons_nonempty.
    + by exists (String c h), t.
Qed.

Lemma last_split_app (sep : ascii) (p s : string) :
  last (split sep (p +:+ String sep s)) = last (split sep s).
Proof.
  destruct (split_app_sep sep p s) as (h & t & -> & Hne & <-).
  by apply last_cons_nonempty.
Qed.

(** X12. The name [add_instance] takes from the ARN of an instance
    profile is what follows the last slash: for an ARN [p/b] where [b]
    has no slash it is [b], and an ARN without a slash is taken whole. *)
Theorem profile_name_after_last_slash (p b : string) :
  occurs "/" b = false →
  last_item (split "/" (p +:+ "/" +:+ b)) = b ∧ last_item (split "/" b) = b.
Proof.
  intros Hb. unfold last_item.
  change (p +:+ "/" +:+ b) with (p +:+ String "/" b).
  rewrite last_split_app. by rewrite (split_free "/" b Hb).
Qed.

(** X13. When a record name ends with a dot, dropping its last
    character as [get_route53_records] does removes exactly that dot:
    putting the dot back gives the name again. *)
Theorem drop_last_endswith (s : string) (c : ascii) :
  endswith_char s c = true → drop_last s +:+ String c "" = s.
Proof.
  induction s as [|d s IH]; [done|].
  destruct s as [|d' s].
  - simpl. intros ->%Ascii.eqb_eq. done.
  - intros H. change (drop_last (String d (String d' s))) with (String d (drop_last (String d' s))).
    change (String d ?x +:+ ?y) with (String d (x +:+ y)). by rewrite IH.
Qed.

(** ** The list of regions *)

Lemma re_split_nonempty (s : string) : re_split_regions s ≠ [].
Proof.
  destruct s as [|c s]; simpl; [done|].
  destruct (Ascii.eqb c ","); [by destruct s as [|[[] [] [] [] [] [] [] []] s]|].
  destruct (isspace c); [done|]. by destruct (re_split_regions s).
Qed.

Lemma re_split_name (name rest : string) :
  separator_free name = true →
  re_split_regions (name +:+ rest) =
  match re_split_regions rest with
  | piece :: pieces => (name +:+ piece) :: pieces
  | [] => [name]
  end.
Proof.
  induction name as [|c name IH]; intros Hfree.
  - change ("" +:+ rest) with rest.
    pose proof (re_split_nonempty rest). by destruct (re_split_regions rest).
  - simpl in Hfree. apply andb_true_iff in Hfree as [Hc Hfree].
    apply negb_true_iff, orb_false_iff in Hc as [Hcomma Hspace].
    change (String c name +:+ rest) with (String c (name +:+ rest)).
    simpl re_split_regions. rewrite Hcomma, Hspace, (IH Hfree).
    pose proof (re_split_nonempty rest). by destruct (re_split_regions rest).
Qed.

Lemma re_split_comma (rest : string) :
  (∀ r, rest ≠ String " " r) →
  re_split_regions (String "," rest) = "" :: re_split_regions rest.
Proof.
  intros H. simpl.
  destruct rest as [|c r]; [done|].
  destruct (Ascii.eqb_spec c " ") as [-> | Hne]; [by destruct (H r)|].
  by destruct c as [[] [] [] [] [] [] [] []].
Qed.

Lemma re_split_comma_space (rest : string) :
  re_split_regions (String "," (String " " rest)) = "" :: re_split_regions rest.
Proof. reflexivity. Qed.

Lemma join_comma_start (names : list string) (r : string) :
  Forall (λ name, separator_free name = true) names →
  join "," names ≠ String " " r.
Proof.
  intros Hall. destruct Hall as [|name names Hname Hall]; [done|].
  destruct name as [|c name].
  - destruct names; done.
  - simpl in Hname. apply andb_true_iff in Hname as [Hc _].
    assert (Hsp : c ≠ " "%char) by (intros ->; done).
    destruct names as [|n ns].
    + intros [= Hc' _]. done.
    + change (join "," (String c name :: n :: ns))
        with (String c (name +:+ "," +:+ join "," (n :: ns))).
      intros [= Hc' _]. done.
Qed.

(** X14. Splitting the [regions] option gives back the region names
    that were listed, whether they are separated by a comma and a space
    or by a comma alone, as long as no name contains a comma or a
    whitespace character. *)
Theorem regions_split_join (names : list string) :
  names ≠ [] →
  Forall (λ name, separator_free name = true) names →
  re_split_regions (join ", " names) = names ∧
  re_split_regions (join "," names) = names.
Proof.
  intros Hne Hall. induction Hall as [|name names Hname Hall IH]; [done|].
  destruct names as [|name' names].
  - simpl. rewrite <- (append_nil_r name) at 1 3.
    rewrite (re_split_name name "" Hname). simpl. by rewrite append_nil_r.
  - destruct IH as [IH1 IH2]; [done|].
    change (join ", " (name :: name' :: names))
      with (name +:+ String "," (String " " (join ", " (name' :: names)))).
    change (join "," (name :: name' :: names))
      with (name +:+ String "," (join "," (name' :: names))).
    rewrite !(re_split_name name _ Hname).
    rewrite (re_split_comma (join "," (name' :: names)))
      by (intros r; by apply join_comma_start).
    rewrite re_split_comma_space, IH1, IH2. by rewrite append_nil_r.
Qed.

(** X15. No piece [re_split_regions] returns contains a comma or a
    whitespace character, and there is always at least one piece (the
    empty string for an empty option). *)
Theorem regions_split_pieces (s : string) :
  re_split_regions s ≠ [] ∧
  Forall (λ piece, separator_free piece = true) (re_split_regions s).
Proof.
  split; [apply re_split_nonempty|].
  induction s as [|c s IH]; [by repeat constructor|].
  simpl. destruct (Ascii.eqb c ",") eqn:Hcomma.
  - destruct s as [|c' s]; [by repeat constructor|].
    assert (Hrest : Forall (λ piece, separator_free piece = true)
                           ("" :: re_split_regions (String c' s))) by by constructor.
    destruct (Ascii.eqb_spec c' " ") as [-> | Hne].
    + simpl in IH. by apply Forall_cons in IH as [_ IH]; constructor.
    + by destruct c' as [[] [] [] [] [] [] [] []].
  - destruct (isspace c) eqn:Hspace; [by constructor|].
    pose proof (re_split_nonempty s).
    destruct (re_split_regions s) as [|piece pieces]; [done|].
    apply Forall_cons in IH as [Hpiece Hpieces]. constructor; [|done].
    simpl. unfold is_separator. by rewrite Hcomma, Hspace, Hpiece.
Qed.

(** ** The variables of a host *)

Lemma to_safe_twice (w : string) : to_safe (to_safe w) = to_safe w.
Proof.
  induction w as [|c w IH]; [done|].
  by rewrite !to_safe_cons, sanitize_char_idem, IH.
Qed.

Lemma prefix_append (u w : string) : String.prefix u (u +:+ w) = true.
Proof.
  induction u as [|c u IH]; [by destruct w|].
  change (String c u +:+ w) with (String c (u +:+ w)). simpl.
  destruct (ascii_dec c c); [apply IH | done].
Qed.

Lemma var_name_ec2 (x : string) : var_name (to_safe ("ec2_" +:+ x)).
Proof.
  split; [|apply to_safe_twice]. rewrite to_safe_app.
  change (to_safe "ec2_") with "ec2_". apply prefix_append.
Qed.

Lemma var_name_tag (x : string) : var_name (to_safe ("ec2_tag_" +:+ x)).
Proof.
  split; [|apply to_safe_twice]. rewrite to_safe_app.
  change (to_safe "ec2_tag_") with ("ec2_" +:+ "tag_").
  rewrite append_assoc. apply prefix_append.
Qed.

Lemma var_names_insert (k : string) (v : json_value) (m : vars_map) :
  var_name k → var_names m → var_names (<[k := v]> m).
Proof.
  intros Hk Hm k'. destruct (decide (k = k')) as [<- | Hne]; [done|].
  rewrite lookup_insert_ne by done. apply Hm.
Qed.

Lemma var_names_tags (items : list (string * string)) (m : vars_map) :
  var_names m →
  var_names (foldl (λ acc kv, <[to_safe ("ec2_tag_" +:+ kv.1) := JStr kv.2]> acc) m items).
Proof.
  revert m. induction items as [|kv items IH]; intros m Hm; [done|].
  simpl. apply IH, var_names_insert; [apply var_name_tag | done].
Qed.

Lemma host_var_names (m m' : vars_map) (attribute : string * attr_value) :
  var_names m → host_var m attribute = Some m' → var_names m'.
Proof.
  intros Hm. unfold host_var.
  assert (Hlit : ∀ k, var_name (to_safe ("ec2_" +:+ k))) by apply var_name_ec2.
  assert (H1 : var_name "ec2_pretty_private_ip") by (by split).
  assert (H2 : var_name "ec2_pretty_public_ip") by (by split).
  assert (H3 : var_name "ec2_security_group_ids") by (by split).
  assert (H4 : var_name "ec2_security_group_names") by (by split).
  destruct (attribute.2) as [z | b | value | | name | items | groups | ];
    repeat case_match; intros [= <-];
    repeat (first [done | apply var_names_tags | apply var_names_insert]).
Qed.

(** X16. Every variable name [get_host_info] builds for a host starts
    with [ec2_] and is made of ASCII letters, digits, hyphens and
    underscores only (sanitizing it changes nothing), whatever the
    attribute names and the tag names are. *)
Theorem host_var_names_valid (attributes : list (string * attr_value)) (m : vars_map)
    (k : string) :
  host_vars attributes = Some m →
  is_Some (m !! k) →
  String.prefix "ec2_" k = true ∧ to_safe k = k.
Proof.
  unfold host_vars.
  assert (H0 : var_names (∅ : vars_map)).
  { intros k' [v Hv]. by rewrite lookup_empty in Hv. }
  revert H0. generalize (∅ : vars_map).
  induction attributes as [|attribute attributes IH]; intros acc Hacc; simpl.
  - intros [= <-]. apply Hacc.
  - destruct (host_var acc attribute) as [acc'|] eqn:E; [|done].
    apply IH. by eapply host_var_names.
Qed.

Lemma host_var_typed (m : vars_map) (attribute : string * attr_value) :
  well_typed attribute → is_Some (host_var m attribute).
Proof.
  unfold well_typed, host_var.
  destruct (attribute.2) as [z | b | value | | name | items | groups | ]; try by eauto.
  all: intros (Hr & Ht & Hg).
  all: destruct (String.eqb_spec (to_safe ("ec2_" +:+ attribute.1)) "ec2_region") as [E1|E1];
    [destruct (Hr E1) as [? [=]]; by eauto|].
  all: destruct (String.eqb_spec (to_safe ("ec2_" +:+ attribute.1)) "ec2_tags") as [E2|E2];
    [destruct (Ht E2) as [? [=]]; by eauto|].
  all: destruct (String.eqb_spec (to_safe ("ec2_" +:+ attribute.1)) "ec2_groups") as [E3|E3];
    [destruct (Hg E3) as [? [=]]; by eauto|].
  all: by eauto.
Qed.

(** X17. The loop over the attributes of the instance raises nothing
    when the attributes named [region], [tags] and [groups] hold a
    region, a dictionary of tags and a list of groups, as those of a
    boto instance do; every other attribute may hold anything. *)
Theorem host_vars_total (attributes : list (string * attr_value)) :
  Forall well_typed attributes → is_Some (host_vars attributes).
Proof.
  unfold host_vars. generalize (∅ : vars_map).
  induction attributes as [|attribute attributes IH]; intros acc Hall; simpl; [by eauto|].
  apply Forall_cons in Hall as [Ha Hall].
  destruct (host_var_typed acc attribute Ha) as [acc' ->]. by apply IH.
Qed.

(** ** [get_instance] *)

Lemma first_instance_head (reservations : list Reservation.t) :
  first_instance reservations = head (concat (Reservation.instances <$> reservations)).
Proof.
  induction reservations as [|reservation rest IH]; [done|].
  simpl. by destruct (Reservation.instances reservation).
Qed.

(** X18. With a connection, [get_instance] returns the first instance
    of the answer in the order of the reservations and of their
    instances, or [None] when the answer holds no instance, and changes
    nothing; without a connection it prints its diagnostic and exits
    with status 1. *)
Theorem get_instance_first (cfg : Config) (connect_euca : ec2_query)
    (connect_to_region : string → option ec2_query) (region instance_id : string)
    (s : Store) :
  match (if EUCALYPTUS cfg then Some connect_euca else connect_to_region region) with
  | Some get_all_instances =>
      get_instance cfg connect_euca connect_to_region region instance_id s
      = (s, Return (head (concat (Reservation.instances
                                    <$> get_all_instances [instance_id]))))
  | None =>
      ∃ s', get_instance cfg connect_euca connect_to_region region instance_id s
            = (s', Raise (SystemExit 1)) ∧
            inventory s' = inventory s ∧ index s' = index s ∧ fs s' = fs s ∧
            stdout s'
            = stdout s ++
              [Text ("region name: " +:+ region +:+
                     " likely not supported, or AWS is down.  connection to region failed.")]
  end.
Proof.
  unfold get_instance.
  destruct (if EUCALYPTUS cfg then Some connect_euca else connect_to_region region)
    as [get_all_instances|].
  - by rewrite first_instance_head.
  - eexists. split; [reflexivity|]. by simpl.
Qed.

(** ** Route53 record sets *)

Lemma add_records_lookup (resources : list string) (name r : string) (m : records_map) :
  foldl (λ acc resource, add_record resource name acc) m resources !! r
  = if decide (r ∈ resources) then Some (default ∅ (m !! r) ∪ {[name]}) else m !! r.
Proof.
  revert m. induction resources as [|x resources IH]; intros m; [done|].
  simpl. rewrite IH. unfold add_record.
  destruct (decide (x = r)) as [-> | Hne].
  - rewrite lookup_insert_eq. simpl.
    rewrite (decide_True (P := r ∈ r :: resources)) by by left.
    destruct (decide (r ∈ resources)); [|done].
    by rewrite <- (assoc_L (∪)), (idemp_L (∪)).
  - rewrite lookup_insert_ne by done.
    destruct (decide (r ∈ resources)) as [Hin | Hnot].
    + by rewrite (decide_True (P := r ∈ x :: resources)) by by right.
    + rewrite (decide_False (P := r ∈ x :: resources)); [done|].
      intros [-> | H]%elem_of_cons; done.
Qed.

(** X19. Taking a record set into the map of records puts its name,
    without the final dot if it has one, into the set of every resource
    of the record set, next to the names that set held, and leaves the
    sets of all other resources as they were. *)
Theorem record_set_names_lookup (record_set : RecordSet.t) (m : records_map) (r : string) :
  record_set_names record_set m !! r =
  if decide (r ∈ RecordSet.resource_records record_set)
  then Some (default ∅ (m !! r) ∪
             {[ if endswith_char (RecordSet.name record_set) "."
                then drop_last (RecordSet.name record_set)
                else RecordSet.name record_set ]})
  else m !! r.
Proof. unfold record_set_names. apply add_records_lookup. Qed.

(** ** Where the entries of a refresh come from *)

Section Provenance.

Context (cfg : Config).

(** X20. After a sequence of calls on fresh dictionaries, every key of
    the index and every address listed in any group of the inventory is
    the primary address of a live resource of the sequence, and the
    index entry is the [[region, id]] of such a resource: a resource
    that is not running or available, or has no address, leaves no
    trace. *)
Theorem entries_from_live_resources (cs : list call) (s : Store) :
  Forall (resolves cfg) cs →
  (∀ a entry, index (run_calls cfg cs (fresh s)).1 !! a = Some entry →
     ∃ c, c ∈ cs ∧ call_dest cfg c = Return (Some a) ∧ entry = call_entry c) ∧
  (∀ g l x, inventory (run_calls cfg cs (fresh s)).1 !! g = Some l → x ∈ l →
     ∃ c, c ∈ cs ∧ call_dest cfg c = Return (Some x)).
Proof.
  intros Hall.
  destruct (run_calls_index cfg cs (fresh s) Hall) as (s' & E & _ & Hidx).
  pose proof (run_calls_indexed cfg cs (fresh s)) as Hind. rewrite E in Hind |- *.
  simpl fst in *.
  assert (Hkey : ∀ a entry, index s' !! a = Some entry →
            ∃ c, c ∈ cs ∧ call_dest cfg c = Return (Some a) ∧ entry = call_entry c).
  { intros a entry. rewrite Hidx.
    destruct (last_writer cfg a cs) as [c|] eqn:Ec; [|simpl; by rewrite lookup_empty].
    intros [= <-]. destruct (last_writer_dest cfg a cs c Ec). eauto. }
  split; [exact Hkey|].
  intros g l x Hl Hx.
  assert (H0 : indexed (fresh s)).
  { intros g' l' x' Hl'. simpl in Hl'. by rewrite lookup_empty in Hl'. }
  destruct (Hind H0 g l x Hl Hx) as [entry Hentry].
  destruct (Hkey x entry Hentry) as (c & Hin & Hd & _). eauto.
Qed.

End Provenance.

(** ** Regions that do not answer *)

Section Unreachable.

Context (cfg : Config) (aws : Provider).

Lemma fetch_loop (s : Store) :
  USE_ROUTE53 cfg = false →
  fetch cfg aws s
  = for_each (REGIONS cfg) (λ region,
      get_instances_by_region cfg aws region None ;;
      get_rds_instances_by_region aws region None) (fresh s).
Proof.
  intros H. unfold fetch. rewrite H.
  erewrite bind_return by reflexivity.
  erewrite bind_return by reflexivity.
  erewrite bind_return by reflexivity. reflexivity.
Qed.

Lemma regions_before_run (before : list string) (s : Store) :
  Forall (region_ok cfg aws) before →
  Forall (resolves cfg)
    (concat ((λ region, ec2_calls cfg aws region ++ rds_calls aws None region) <$> before)) →
  ∃ s1, for_each before (λ region,
          get_instances_by_region cfg aws region None ;;
          get_rds_instances_by_region aws region None) s = (s1, Return tt) ∧
        fs s1 = fs s.
Proof.
  intros Hok Hres. rewrite (region_loop_run cfg aws before None s Hok).
  destruct (run_calls_index cfg _ s Hres) as (s1 & E & F & _). eauto.
Qed.

Lemma no_connection_run (region : string) (records : option records_map) (s : Store) :
  ec2_connection cfg aws region = None →
  get_instances_by_region cfg aws region records s
  = ({| inventory := inventory s; index := index s; fs := fs s; clock := clock s;
        stdout := stdout s ++
          [Text ("Region name: " +:+ region +:+
                 " likely not supported, or AWS is down.  Connection to region failed.")] |},
     Raise (SystemExit 1)).
Proof.
  intros H. unfold get_instances_by_region. fold (ec2_connection cfg aws region).
  by rewrite H.
Qed.

(** X21. When Route53 is off, the regions before [region] answer and
    [region] has no EC2 connection, the refresh prints the diagnostic
    for that region as its last line and exits with status 1; no cache
    file is written, although the resources of the earlier regions have
    been fetched. *)
Theorem unreachable_region_exits (before after : list string) (region : string)
    (s : Store) :
  REGIONS cfg = before ++ region :: after →
  USE_ROUTE53 cfg = false →
  Forall (region_ok cfg aws) before →
  Forall (resolves cfg)
    (concat ((λ region, ec2_calls cfg aws region ++ rds_calls aws None region) <$> before)) →
  ec2_connection cfg aws region = None →
  ∃ s', update_inventory cfg aws s = (s', Raise (SystemExit 1)) ∧
        fs s' = fs s ∧
        last (stdout s')
        = Some (Text ("Region name: " +:+ region +:+
                      " likely not supported, or AWS is down.  Connection to region failed.")).
Proof.
  intros Hregions Hr53 Hok Hres Hconn.
  rewrite update_inventory_split. unfold mbind at 1, M_bind at 1.
  rewrite (fetch_loop s Hr53), Hregions, for_each_app.
  destruct (regions_before_run before (fresh s) Hok Hres) as (s1 & E & F).
  rewrite (bind_return _ _ _ _ _ E). simpl for_each.
  erewrite bind_raise;
    [|erewrite bind_raise; [reflexivity | by apply no_connection_run]].
  eexists. split; [reflexivity|]. simpl.
  split; [done|]. by rewrite last_snoc.
Qed.

Lemma rds_error_run (region msg : string) (records : option records_map) (s : Store) :
  rds_connect_to_region aws region = Some (inl msg) →
  get_rds_instances_by_region aws region records s
  = ({| inventory := inventory s; index := index s; fs := fs s; clock := clock s;
        stdout := (stdout s ++ [Text "Looks like AWS RDS is down: "]) ++ [Text msg] |},
     Raise (SystemExit 1)).
Proof.
  intros H. unfold get_rds_instances_by_region, try_except. by rewrite H.
Qed.

(** X22. When Route53 is off, the regions before [region] answer, and
    in [region] EC2 answers but RDS raises a [BotoServerError], the
    refresh prints ["Looks like AWS RDS is down: "] and the message of
    the error as its last two lines and exits with status 1, without
    writing a cache file. *)
Theorem rds_error_exits (before after : list string) (region msg : string) (s : Store) :
  REGIONS cfg = before ++ region :: after →
  USE_ROUTE53 cfg = false →
  Forall (region_ok cfg aws) before →
  Forall (resolves cfg)
    (concat ((λ region, ec2_calls cfg aws region ++ rds_calls aws None region) <$> before)) →
  is_Some (ec2_connection cfg aws region) →
  Forall (resolves cfg) (ec2_calls cfg aws region) →
  rds_connect_to_region aws region = Some (inl msg) →
  ∃ s' out, update_inventory cfg aws s = (s', Raise (SystemExit 1)) ∧
            fs s' = fs s ∧
            stdout s' = out ++ [Text "Looks like AWS RDS is down: "; Text msg].
Proof.
  intros Hregions Hr53 Hok Hres Hconn Hec2 Hrds.
  rewrite update_inventory_split. unfold mbind at 1, M_bind at 1.
  rewrite (fetch_loop s Hr53), Hregions, for_each_app.
  destruct (regions_before_run before (fresh s) Hok Hres) as (s1 & E & F).
  rewrite (bind_return _ _ _ _ _ E). simpl for_each.
  destruct (run_calls_index cfg _ s1 Hec2) as (s2 & E2 & F2 & _).
  rewrite <- (ec2_calls_run cfg aws region None s1 Hconn) in E2.
  erewrite bind_raise;
    [|erewrite bind_return by exact E2; by apply rds_error_run].
  eexists _, (stdout s2). split; [reflexivity|]. simpl in *.
  split; [congruence|]. by rewrite <- app_assoc.
Qed.

End Unreachable.

(** ** Stripping, and the word [all] *)

Lemma lstrip_space (ws s : string) : all_space ws = true → lstrip (ws +:+ s) = lstrip s.
Proof.
  induction ws as [|c ws IH]; [done|].
  simpl. intros [Hc Hws]%andb_true_iff.
  change (String c ws +:+ s) with (String c (ws +:+ s)). simpl. rewrite Hc. auto.
Qed.

Lemma rstrip_space (ws : string) : all_space ws = true → rstrip ws = "".
Proof.
  induction ws as [|c ws IH]; [done|].
  simpl. intros [Hc Hws]%andb_true_iff. by rewrite (IH Hws), Hc.
Qed.

Lemma rstrip_app_space (s ws : string) :
  all_space ws = true → rstrip (s +:+ ws) = rstrip s.
Proof.
  intros Hws. induction s as [|c s IH].
  - change ("" +:+ ws) with ws. by rewrite rstrip_space.
  - change (String c s +:+ ws) with (String c (s +:+ ws)). simpl. by rewrite IH.
Qed.




(** X24. When the [regions] option is not set, or is the word [all]
    with any whitespace around it, the regions are those the provider
    lists, or the one region of the Eucalyptus connection when a
    Eucalyptus host is configured; the option itself is not split. *)
Theorem load_regions_all (ws1 ws2 : string) (euca_host : pyval) (euca_region : string)
    (ec2_regions : list string) :
  all_space ws1 = true → all_space ws2 = true →
  load_regions (Some (ws1 +:+ "all" +:+ ws2)) euca_host euca_region ec2_regions
  = (if truthy euca_host then [euca_region] else ec2_regions) ∧
  load_regions None euca_host euca_region ec2_regions
  = (if truthy euca_host then [euca_region] else ec2_regions).
Proof.
  intros H1 H2. split; [|done]. unfold load_regions, strip.
  rewrite lstrip_space by done.
  change (lstrip ("all" +:+ ws2)) with ("all" +:+ ws2).
  by rewrite rstrip_app_space.
Qed.

(** ** Instances of the further properties on the sample data *)

Lemma call_exact_witness :
  ∃ s', run_call default_config call_db (empty_store ∅ 0)
        = (s', Return (Some (inventory s', index s'))) ∧
        index s' = <["orders.example.rds.amazonaws.com" := call_entry call_db]> ∅ ∧
        inventory s'
        = append_all (call_group_names call_db) "orders.example.rds.amazonaws.com"
            (<[call_id call_db := ["orders.example.rds.amazonaws.com"]]> ∅) ∧
        fs s' = ∅ ∧ clock s' = 0 ∧
        stdout s' = [] ++ call_warnings call_db.
Proof.
  exact (call_exact default_config call_db "orders.example.rds.amazonaws.com"
           (empty_store ∅ 0) eq_refl).
Defined.

Lemma call_group_contents_witness :
  inventory (run_call default_config call_a (empty_store ∅ 0)).1 !! call_id call_a
  = Some (replicate (S (occurrences (call_id call_a) (call_group_names call_a)))
            shared_address) ∧
  (call_id call_a ∉ call_group_names call_a →
   inventory (run_call default_config call_a (empty_store ∅ 0)).1 !! call_id call_a
   = Some [shared_address]) ∧
  ∀ g, g ≠ call_id call_a →
    inventory (run_call default_config call_a (empty_store ∅ 0)).1 !! g =
    match occurrences g (call_group_names call_a) with
    | O => inventory (empty_store ∅ 0) !! g
    | S n => Some (default [] (inventory (empty_store ∅ 0) !! g)
                   ++ replicate (S n) shared_address)
    end.
Proof.
  exact (call_group_contents default_config call_a shared_address (empty_store ∅ 0)
           eq_refl).
Defined.

Lemma healthy_regions_ok :
  Forall (region_ok default_config healthy_provider) (REGIONS default_config).
Proof.
  repeat constructor; [by eexists | done].
Defined.

Lemma healthy_calls_resolve :
  Forall (resolves default_config)
    (refresh_calls default_config healthy_provider
       (if USE_ROUTE53 default_config then Some ∅ else None)).
Proof.
  repeat constructor; eexists; reflexivity.
Defined.

Lemma refresh_is_calls_witness :
  update_inventory default_config healthy_provider (empty_store ∅ 1000)
  = (run_calls default_config
       (refresh_calls default_config healthy_provider
          (if USE_ROUTE53 default_config then Some ∅ else None)) ;;
     write_cache default_config) (fresh (empty_store ∅ 1000)).
Proof.
  apply (refresh_is_calls default_config healthy_provider (empty_store ∅ 1000)).
  - discriminate.
  - exact healthy_regions_ok.
Defined.

Lemma refresh_result_witness :
  ∃ s1,
    run_calls default_config
      (refresh_calls default_config healthy_provider
         (if USE_ROUTE53 default_config then Some ∅ else None))
      (fresh (empty_store ∅ 1000)) = (s1, Return tt) ∧
    update_inventory default_config healthy_provider (empty_store ∅ 1000)
    = write_cache default_config s1 ∧
    (∀ a, index s1 !! a
          = call_entry <$>
            last_writer default_config a
              (refresh_calls default_config healthy_provider
                 (if USE_ROUTE53 default_config then Some ∅ else None))) ∧
    indexed s1 ∧
    ∀ s' r,
      update_inventory default_config healthy_provider (empty_store ∅ 1000)
      = (s', Return r) →
      r = (inventory s1, index s1) ∧
      inventory s' = inventory s1 ∧ index s' = index s1 ∧
      clock s' = clock (empty_store ∅ 1000) ∧
      fs s' = <[CACHE_INDEX_PATH default_config
                := RegularFile (clock (empty_store ∅ 1000)) (JsonObj (index s1))]>
                (<[CACHE_FILE_PATH default_config
                   := RegularFile (clock (empty_store ∅ 1000)) (JsonObj (inventory s1))]>
                   (fs (empty_store ∅ 1000))).
Proof.
  apply (refresh_result default_config healthy_provider (empty_store ∅ 1000)).
  - discriminate.
  - exact healthy_regions_ok.
  - exact healthy_calls_resolve.
Defined.

Lemma refresh_round_trip_witness :
  ∃ s' r,
    update_inventory default_config healthy_provider (empty_store ∅ 1000) = (s', Return r) ∧
    read_json (CACHE_FILE_PATH default_config) s' = (s', Return r.1) ∧
    read_json (CACHE_INDEX_PATH default_config) s' = (s', Return r.2) ∧
    (0 < CACHE_MAX_AGE default_config → cache_expired default_config s' = (s', Return false)).
Proof.
  destruct (refresh_returns default_config healthy_provider (empty_store ∅ 1000))
    as (s' & r & E);
    [discriminate | exact healthy_regions_ok | exact healthy_calls_resolve
    | reflexivity | reflexivity |].
  exists s', r. split; [exact E|].
  exact (refresh_round_trip default_config healthy_provider _ s' r E).
Defined.

Lemma failed_refresh_files_witness :
  ∃ s' e,
    update_inventory default_config no_region_provider (empty_store cached_files 1000)
    = (s', Raise e) ∧
    ((fetch default_config no_region_provider (empty_store cached_files 1000)
      = (s', Raise e) ∧
      fs s' = fs (empty_store cached_files 1000) ∧
      clock s' = clock (empty_store cached_files 1000)) ∨
     (∃ s1, fetch default_config no_region_provider (empty_store cached_files 1000)
            = (s1, Return tt) ∧
            fs s1 = fs (empty_store cached_files 1000) ∧
            clock s1 = clock (empty_store cached_files 1000) ∧
            write_cache default_config s1 = (s', Raise e))).
Proof.
  destruct (update_inventory default_config no_region_provider (empty_store cached_files 1000))
    as [s' [r|e]] eqn:E.
  - vm_compute in E. discriminate E.
  - exists s', e. split; [reflexivity|].
    exact (failed_refresh_files default_config no_region_provider _ s' e E).
Defined.



Lemma refresh_then_list_witness :
  ∃ s' r,
    update_inventory default_config healthy_provider (empty_store ∅ 1000) = (s', Return r) ∧
    ∃ s1, main default_config healthy_provider refresh_args (empty_store ∅ 1000)
          = (s1, Return tt) ∧
          stdout s1 = stdout s' ++ [JsonObj r.1] ∧
          ∃ s2, main default_config healthy_provider list_args s1 = (s2, Return tt) ∧
                stdout s2 = stdout s1 ++ [JsonObj r.1] ∧ fs s2 = fs s'.
Proof.
  destruct (refresh_returns default_config healthy_provider (empty_store ∅ 1000))
    as (s' & r & E);
    [discriminate | exact healthy_regions_ok | exact healthy_calls_resolve
    | reflexivity | reflexivity |].
  exists s', r. split; [exact E|].
  apply (refresh_then_list default_config healthy_provider refresh_args list_args
           (empty_store ∅ 1000) s' r E); reflexivity.
Defined.

Lemma profile_name_after_last_slash_witness :
  last_item (split "/" ("arn:aws:iam::123456789012:instance-profile" +:+ "/" +:+ "web-role"))
  = "web-role" ∧
  last_item (split "/" "web-role") = "web-role".
Proof.
  apply (profile_name_after_last_slash "arn:aws:iam::123456789012:instance-profile"
           "web-role").
  reflexivity.
Defined.

Lemma drop_last_endswith_witness :
  drop_last "web.example.com." +:+ String "." "" = "web.example.com.".
Proof.
  apply (drop_last_endswith "web.example.com." "."). reflexivity.
Defined.

Lemma regions_split_join_witness :
  re_split_regions (join ", " ["us-east-1"; "us-west-2"; "eu-west-1"])
  = ["us-east-1"; "us-west-2"; "eu-west-1"] ∧
  re_split_regions (join "," ["us-east-1"; "us-west-2"; "eu-west-1"])
  = ["us-east-1"; "us-west-2"; "eu-west-1"].
Proof.
  apply (regions_split_join ["us-east-1"; "us-west-2"; "eu-west-1"]).
  - discriminate.
  - repeat constructor.
Defined.

Lemma host_var_names_valid_witness :
  ∃ m, host_vars [("tags", VTags [("Name", "web 1")])] = Some m ∧
       is_Some (m !! "ec2_tag_Name") ∧
       String.prefix "ec2_" "ec2_tag_Name" = true ∧ to_safe "ec2_tag_Name" = "ec2_tag_Name".
Proof.
  exists (<["ec2_tag_Name" := JStr "web 1"]> ∅).
  assert (E : host_vars [("tags", VTags [("Name", "web 1")])]
              = Some (<["ec2_tag_Name" := JStr "web 1"]> ∅)) by reflexivity.
  assert (Hk : is_Some ((<["ec2_tag_Name" := JStr "web 1"]> ∅ : vars_map) !! "ec2_tag_Name"))
    by (rewrite lookup_insert_eq; eauto).
  split; [exact E|]. split; [exact Hk|].
  exact (host_var_names_valid _ _ "ec2_tag_Name" E Hk).
Defined.

Lemma sample_attributes_typed : Forall well_typed sample_attributes.
Proof.
  repeat constructor; unfold well_typed; simpl;
    repeat split; intros H; try discriminate H; eauto.
Defined.

Lemma host_vars_total_witness : is_Some (host_vars sample_attributes).
Proof. exact (host_vars_total sample_attributes sample_attributes_typed). Defined.

Lemma entries_from_live_resources_witness :
  (∀ a entry,
     index (run_calls default_config [call_a; call_db] (fresh (empty_store ∅ 0))).1 !! a
     = Some entry →
     ∃ c, c ∈ [call_a; call_db] ∧ call_dest default_config c = Return (Some a) ∧
          entry = call_entry c) ∧
  (∀ g l x,
     inventory (run_calls default_config [call_a; call_db] (fresh (empty_store ∅ 0))).1 !! g
     = Some l → x ∈ l →
     ∃ c, c ∈ [call_a; call_db] ∧ call_dest default_config c = Return (Some x)).
Proof.
  apply (entries_from_live_resources default_config [call_a; call_db] (empty_store ∅ 0)).
  repeat constructor; eexists; reflexivity.
Defined.

Lemma unreachable_region_exits_witness :
  ∃ s', update_inventory default_config no_region_provider (empty_store ∅ 1000)
        = (s', Raise (SystemExit 1)) ∧
        fs s' = fs (empty_store ∅ 1000) ∧
        last (stdout s')
        = Some (Text ("Region name: " +:+ "us-east-1" +:+
                      " likely not supported, or AWS is down.  Connection to region failed.")).
Proof.
  apply (unreachable_region_exits default_config no_region_provider [] [] "us-east-1"
           (empty_store ∅ 1000)).
  - reflexivity.
  - reflexivity.
  - constructor.
  - constructor.
  - reflexivity.
Defined.

Lemma rds_error_exits_witness :
  ∃ s' out, update_inventory default_config rds_down_provider (empty_store ∅ 1000)
            = (s', Raise (SystemExit 1)) ∧
            fs s' = fs (empty_store ∅ 1000) ∧
            stdout s' = out ++ [Text "Looks like AWS RDS is down: "; Text "ServiceUnavailable"].
Proof.
  apply (rds_error_exits default_config rds_down_provider [] [] "us-east-1"
           "ServiceUnavailable" (empty_store ∅ 1000)).
  - reflexivity.
  - reflexivity.
  - constructor.
  - constructor.
  - by eexists.
  - repeat constructor. eexists. reflexivity.
  - reflexivity.
Defined.


Lemma load_regions_all_witness :
  load_regions (Some (" " +:+ "all" +:+ " ")) PyNone "eucalyptus" ["us-east-1"; "us-west-2"]
  = (if truthy PyNone then ["eucalyptus"] else ["us-east-1"; "us-west-2"]) ∧
  load_regions None PyNone "eucalyptus" ["us-east-1"; "us-west-2"]
  = (if truthy PyNone then ["eucalyptus"] else ["us-east-1"; "us-west-2"]).
Proof.
  apply (load_regions_all " " " " PyNone "eucalyptus" ["us-east-1"; "us-west-2"]);
    reflexivity.
Defined.
